(** * waveforms: the scroll-driven step tracker and the width observer

    A shallow embedding of [src/components/IntroRoute/IntroRoute.js] and
    [src/components/AvailableWidth/AvailableWidth.js].

    Conventions of the embedding:
    - a JavaScript value that can end up in [currentStep] is a [JS.value]
      ([undefined], a number or a string); strict equality on these is
      structural equality;
    - pixel measurements and the other numbers the handlers only copy or
      compare with [0] are integers ([Z]);
    - [this.setState(partial)] merges a partial state into the state record;
    - an event handler is a function from the state before to the state after;
      what the handler reads from the browser (the window height, the
      bounding rectangles of the sections) is an argument of the function. *)

From stdpp Require Import base decidable option strings numbers pretty gmap list sorting.

Local Open Scope Z_scope.

(** ** JavaScript values and the array methods the components call *)

Module JS.

Inductive value : Type :=
| Undefined
| Num (n : Z)
| Str (s : string).

#[global] Instance value_eq_dec : EqDecision value.
Proof. solve_decision. Defined.

(** [a === b] and [a !== b] *)
Definition strict_eq (a b : value) : bool := bool_decide (a = b).
Definition strict_neq (a b : value) : bool := negb (strict_eq a b).

(** [arr[i]]: [undefined] outside of [0 .. arr.length - 1] *)
Definition get (arr : list value) (i : Z) : value :=
  if i <? 0 then Undefined else default Undefined (arr !! Z.to_nat i).

(** [arr.findIndex(p)]: the index of the first element satisfying [p],
    [-1] when there is none *)
Fixpoint findIndex_from {A : Type} (p : A → bool) (arr : list A) (k : Z) : Z :=
  match arr with
  | [] => -1
  | x :: rest => if p x then k else findIndex_from p rest (k + 1)
  end.

Definition findIndex {A : Type} (p : A → bool) (arr : list A) : Z :=
  findIndex_from p arr 0.

(** [arr.indexOf(v)]: strict equality, first occurrence, [-1] when absent *)
Definition indexOf (arr : list value) (v : value) : Z :=
  findIndex (λ x, strict_eq x v) arr.

Definition is_number (v : value) : Prop :=
  match v with Num _ => True | _ => False end.

Definition is_name (v : value) : Prop :=
  match v with Str _ => True | _ => False end.

#[global] Instance is_number_dec v : Decision (is_number v).
Proof. destruct v; simpl; apply _. Defined.

#[global] Instance is_name_dec v : Decision (is_name v).
Proof. destruct v; simpl; apply _. Defined.

End JS.

(** ** The part of the DOM the components touch *)

Module DOM.

Record DOMRect : Type := mkRect {
  rect_width : Z;
  rect_bottom : Z
}.

(** An element, with the rectangle [getBoundingClientRect()] returns for
    it at the time of the call. *)
Record HTMLElement : Type := mkElement {
  node : nat;
  getBoundingClientRect : DOMRect
}.

(** *** ResizeObserver *)

Record ResizeObserverEntry : Type := mkEntry {
  target : nat;
  contentRect : DOMRect
}.

Record ResizeObserver : Type := mkObserver {
  observed : list nat
}.

Definition new_ResizeObserver : ResizeObserver := mkObserver [].

Definition observe (el : HTMLElement) (o : ResizeObserver) : ResizeObserver :=
  mkObserver (observed o ++ [node el]).

Definition disconnect (o : ResizeObserver) : ResizeObserver := mkObserver [].

(** The entries the browser hands to the observer's callback: those of the
    targets it observes. The callback is not invoked for an empty list. *)
Definition deliverable (o : ResizeObserver) (entries : list ResizeObserverEntry)
  : list ResizeObserverEntry :=
  filter (λ e, target e ∈ observed o) entries.

(** *** Window event listeners *)

(** The identity of a listener function: the two debounced handlers of an
    [IntroRoute] instance, or a function of some other code. *)
Inductive listener : Type :=
| HandleResize (instance : nat)
| HandleScroll (instance : nat)
| Foreign (k : nat).

#[global] Instance listener_eq_dec : EqDecision listener.
Proof. solve_decision. Defined.

Definition registration : Type := string * listener.

(** [addEventListener(type, f)]: the same function is registered at most
    once for a type. *)
Definition addEventListener (type : string) (f : listener)
  (ls : list registration) : list registration :=
  if decide ((type, f) ∈ ls) then ls else ls ++ [(type, f)].

(** [removeEventListener(type, f)] *)
Definition removeEventListener (type : string) (f : listener)
  (ls : list registration) : list registration :=
  filter (λ r, r ≠ (type, f)) ls.

(** The listeners an event of the given type is dispatched to, in order. *)
Definition listeners_for (type : string) (ls : list registration) : list listener :=
  snd <$> filter (λ r, r.1 = type) ls.

End DOM.

(** ** utils: debounce *)

Module Utils.

(** Modelled from the spec: [debounce] of [src/utils], which the components
    import and which is not among the sources. The spec's words are
    "Debounce: coalescing rapid repeated events into one delayed
    invocation" and "coalescing bursts of events into a single handler
    invocation": every raw call (re)starts a delay of [wait] milliseconds,
    dropping the invocation that was still pending, and the wrapped body
    runs when a delay elapses.

    [pending] is the time at which the delayed invocation is due, if one is
    scheduled; [calls] are the times (in ms) of the raw calls that are
    still to come. The result lists the times at which the body runs. *)
Fixpoint executions (wait : Z) (pending : option Z) (calls : list Z) : list Z :=
  match calls with
  | [] =>
      match pending with
      | Some due => [due]
      | None => []
      end
  | t :: later =>
      match pending with
      | Some due =>
          if due <=? t
          then due :: executions wait (Some (t + wait)) later
          else executions wait (Some (t + wait)) later
      | None => executions wait (Some (t + wait)) later
      end
  end.

(** A handler made by [debounce(body, wait)], before any call. *)
Definition debounce (wait : Z) (calls : list Z) : list Z :=
  executions wait None calls.

(** How many times the body runs in the window [[from, from + len)]. *)
Definition runs_within (from len : Z) (runs : list Z) : nat :=
  length (filter (λ t, from ≤ t ∧ t < from + len) runs).

End Utils.

(** ** AvailableWidth *)

Module AvailableWidth.
Import DOM.

(** [type State = { width?: number }]: [None] is the absent ([undefined])
    width. *)
Record State : Type := mkState {
  width : option Z
}.

#[global] Instance State_eq_dec : EqDecision State.
Proof. solve_decision. Defined.

(** What the braces inside the [<div>] evaluate to: [false], which React
    renders as nothing, or the node the children function returned. *)
Inductive child (Node : Type) : Type :=
| Nothing
| Content (n : Node).
Arguments Nothing {Node}.
Arguments Content {Node} n.

Inductive element (Node : Type) : Type :=
| Div (inner : child Node).
Arguments Div {Node} inner.

Section Component.
Context {Node : Type}.

Record Props : Type := mkProps {
  children : Z → Node
}.

(** [render()]: [<div>{width !== undefined && children(width)}</div>] *)
Definition render (props : Props) (state : State) : element Node :=
  Div (match width state with
       | None => Nothing
       | Some w => Content (children props w)
       end).

(** A component instance: its props and state, the [elem] and [observer]
    fields, and the outputs of the [render] calls made so far, newest
    first. *)
Record Instance : Type := mkInstance {
  props : Props;
  state : State;
  elem : HTMLElement;
  observer : option ResizeObserver;
  rendered : list (element Node)
}.

(** The instance after construction ([state = {}]) and the first render,
    which also sets [elem] through the ref callback. *)
Definition create (p : Props) (el : HTMLElement) : Instance :=
  {| props := p;
     state := mkState None;
     elem := el;
     observer := None;
     rendered := [render p (mkState None)] |}.

(** [this.setState({ width: w })] of a [PureComponent]: the state is
    replaced, and [render] runs again when the new state differs from the
    old one. *)
Definition setState_width (w : Z) (c : Instance) : Instance :=
  let next := mkState (Some w) in
  {| props := props c;
     state := next;
     elem := elem c;
     observer := observer c;
     rendered := if decide (next = state c)
                 then rendered c
                 else render (props c) next :: rendered c |}.

Definition componentDidMount (c : Instance) : Instance :=
  let c := setState_width (rect_width (getBoundingClientRect (elem c))) c in
  {| props := props c;
     state := state c;
     elem := elem c;
     observer := Some (observe (elem c) new_ResizeObserver);
     rendered := rendered c |}.

(** The callback given to the observer, [([entry]) => this.setState(...)].
    [None] is the [TypeError] of reading [contentRect] of [undefined],
    when the array is empty. *)
Definition observer_callback (entries : list ResizeObserverEntry)
  (c : Instance) : option Instance :=
  match entries with
  | [] => None
  | entry :: _ => Some (setState_width (rect_width (contentRect entry)) c)
  end.

(** [this.observer.disconnect()]; [None] is the [TypeError] when
    [observer] was never set. *)
Definition componentWillUnmount (c : Instance) : option Instance :=
  match observer c with
  | None => None
  | Some o =>
      Some {| props := props c;
              state := state c;
              elem := elem c;
              observer := Some (disconnect o);
              rendered := rendered c |}
  end.

(** The browser reports resized elements: the observer's callback runs
    with the entries of the targets it observes, if there are any. An
    exception in the callback leaves the instance as it was. *)
Definition notify (entries : list ResizeObserverEntry) (c : Instance) : Instance :=
  match observer c with
  | None => c
  | Some o =>
      match deliverable o entries with
      | [] => c
      | es => default c (observer_callback es c)
      end
  end.

Inductive event : Type :=
| Mount
| Resized (entries : list ResizeObserverEntry)
| Unmount.

Definition step (c : Instance) (ev : event) : Instance :=
  match ev with
  | Mount => componentDidMount c
  | Resized entries => notify entries c
  | Unmount => default c (componentWillUnmount c)
  end.

Definition run (c : Instance) (evs : list event) : Instance :=
  foldl step c evs.

End Component.

Arguments Props : clear implicits.
Arguments Instance : clear implicits.

End AvailableWidth.


(** ** IntroRoute *)

Module IntroRoute.
Import JS DOM.

Definition WaveformShape : Type := string.

Record State : Type := mkState {
  currentStep : value;
  windowHeight : Z;
  amplitude : Z;
  frequency : Z;
  shape : WaveformShape;
  userEnabledSound : bool
}.

(** The object literal given to [setState]: the keys it has. *)
Record Partial : Type := mkPartial {
  set_currentStep : option value;
  set_windowHeight : option Z;
  set_amplitude : option Z;
  set_frequency : option Z;
  set_shape : option WaveformShape;
  set_userEnabledSound : option bool
}.

(** [this.setState(partial)]: the keys of [partial] replace those of the
    state, the other keys stay. *)
Definition setState (partial : Partial) (st : State) : State :=
  {| currentStep := default (currentStep st) (set_currentStep partial);
     windowHeight := default (windowHeight st) (set_windowHeight partial);
     amplitude := default (amplitude st) (set_amplitude partial);
     frequency := default (frequency st) (set_frequency partial);
     shape := default (shape st) (set_shape partial);
     userEnabledSound := default (userEnabledSound st) (set_userEnabledSound partial) |}.

Record IntersectionObserverEntry : Type := mkIntersection {
  isIntersecting : bool
}.

Inductive direction : Type := forwards | backwards.

(** The window, as far as the component uses it. *)
Record Window : Type := mkWindow {
  innerHeight : Z;
  listeners : list registration
}.

Section Constants.

(** [INTRO_STEPS] and [DEFAULT_WAVEFORM_SHAPE] come from [src/constants],
    whose definitions of them are not among the sources. *)
Variable INTRO_STEPS : list value.
Variable DEFAULT_WAVEFORM_SHAPE : WaveformShape.

Definition initialState (window : Window) : State :=
  {| currentStep := get INTRO_STEPS 0;
     windowHeight := innerHeight window;
     amplitude := 1;
     frequency := 1;
     shape := DEFAULT_WAVEFORM_SHAPE;
     userEnabledSound := false |}.

Definition handleUpdateAmplitude (val : Z) (st : State) : State :=
  setState (mkPartial None None (Some val) None None None) st.

Definition handleUpdateFrequency (val : Z) (st : State) : State :=
  setState (mkPartial None None None (Some val) None None) st.

Definition handleToggleAudibility (val : bool) (st : State) : State :=
  setState (mkPartial None None None None None (Some val)) st.

(** The body of [handleResize]. *)
Definition handleResize (window : Window) (st : State) : State :=
  setState (mkPartial None (Some (innerHeight window)) None None None None) st.

(** [section => section.getBoundingClientRect().bottom >= 0] *)
Definition in_or_below_viewport (section : HTMLElement) : bool :=
  0 <=? rect_bottom (getBoundingClientRect section).

(** The condition of the [if] in [handleScroll]:
    [activeSectionIndex !== this.state.currentStep]. *)
Definition handleScroll_guard (activeSectionIndex : Z) (st : State) : bool :=
  strict_neq (Num activeSectionIndex) (currentStep st).

(** The body of [handleScroll]. *)
Definition handleScroll (sectionRefs : list HTMLElement) (st : State) : State :=
  let activeSectionIndex := findIndex in_or_below_viewport sectionRefs in
  if handleScroll_guard activeSectionIndex st
  then setState (mkPartial (Some (get INTRO_STEPS activeSectionIndex))
                           None None None None None) st
  else st.

(** [const direction = id === this.state.currentStep ? 'forwards' : 'backwards'] *)
Definition intersect_direction (id : value) (st : State) : direction :=
  if strict_eq id (currentStep st) then forwards else backwards.

Definition handleIntersect (id : value) (entry : IntersectionObserverEntry)
  (st : State) : State :=
  let currentStepIndex := indexOf INTRO_STEPS (currentStep st) in
  let intersectStepIndex := indexOf INTRO_STEPS id in
  let nextStep :=
    match intersect_direction id st with
    | forwards => get INTRO_STEPS (intersectStepIndex + 1)
    | backwards => get INTRO_STEPS intersectStepIndex
    end in
  setState (mkPartial (Some nextStep) None None None None None) st.

(** *** The component as a transition system *)

(** What can happen to a mounted component: the body of a debounced handler
    runs (with what it then reads from the browser), a section reports an
    intersection, or a child calls one of the setters. *)
Inductive event : Type :=
| Scroll (sectionRefs : list HTMLElement)
| Resize (window : Window)
| Intersect (id : value) (entry : IntersectionObserverEntry)
| UpdateAmplitude (val : Z)
| UpdateFrequency (val : Z)
| ToggleAudibility (val : bool).

Definition step (st : State) (ev : event) : State :=
  match ev with
  | Scroll sectionRefs => handleScroll sectionRefs st
  | Resize window => handleResize window st
  | Intersect id entry => handleIntersect id entry st
  | UpdateAmplitude val => handleUpdateAmplitude val st
  | UpdateFrequency val => handleUpdateFrequency val st
  | ToggleAudibility val => handleToggleAudibility val st
  end.

Definition run (window : Window) (evs : list event) : State :=
  foldl step (initialState window) evs.

(** *** Mounting and the window's listeners *)

Definition componentDidMount (self : nat) (window : Window) : Window :=
  let ls := addEventListener "resize" (HandleResize self) (listeners window) in
  let ls := addEventListener "scroll" (HandleScroll self) ls in
  mkWindow (innerHeight window) ls.

Definition componentWillUnmount (self : nat) (window : Window) : Window :=
  let ls := removeEventListener "resize" (HandleResize self) (listeners window) in
  let ls := removeEventListener "scroll" (HandleScroll self) ls in
  mkWindow (innerHeight window) ls.

(** A listener of the window is called. Only the two handlers of the
    instance [self] touch its state; the call of a debounced handler is
    followed by a run of its body. *)
Definition call_listener (self : nat) (window : Window)
  (sectionRefs : list HTMLElement) (st : State) (f : listener) : State :=
  match f with
  | HandleResize i => if decide (i = self) then handleResize window st else st
  | HandleScroll i => if decide (i = self) then handleScroll sectionRefs st else st
  | Foreign _ => st
  end.

(** The window dispatches an event of the given type. *)
Definition dispatchEvent (self : nat) (window : Window)
  (sectionRefs : list HTMLElement) (type : string) (st : State) : State :=
  foldl (call_listener self window sectionRefs) st
        (listeners_for type (listeners window)).

(** Which listeners of the window belong to the instance [self]. *)
Definition owned_by (self : nat) (r : registration) : Prop :=
  r.2 = HandleResize self ∨ r.2 = HandleScroll self.

End Constants.

#[global] Instance owned_by_dec self r : Decision (owned_by self r).
Proof. unfold owned_by. apply _. Defined.

(** The interval both debounced handlers are made with. *)
Definition handleResize_wait : Z := 500.
Definition handleScroll_wait : Z := 500.

(** *** Rendering *)

(** The data of a step, as far as [render] reads it: [makeSoundToggleable],
    [isPlaying] and the two overrides, which count when they are numbers. *)
Record StepData : Type := mkStepData {
  makeSoundToggleable : bool;
  isPlaying : bool;
  amplitudeOverride : value;
  frequencyOverride : value
}.

(** [type Section]; [getMargin] is optional. *)
Record Section (Node : Type) : Type := mkSection {
  section_id : value;
  section_getMargin : option (Z → Z);
  section_children : Node
}.
Arguments mkSection {Node} _ _ _.
Arguments section_id {Node} _.
Arguments section_getMargin {Node} _.
Arguments section_children {Node} _.

(** The props [render] gives to the components it renders. The props that
    are handlers ([handleToggleAudibility], [handleUpdateAmplitude],
    [handleUpdateFrequency], [onIntersect], [innerRef]) are the functions
    above and are left out of the records. *)
Record SoundButtonToggleProps : Type := mkToggle {
  toggle_isVisible : bool;
  toggle_isAudible : bool
}.

Record OscillatorProps : Type := mkOscillator {
  oscillator_shape : WaveformShape;
  oscillator_amplitude : Z;
  oscillator_frequency : Z;
  oscillator_isAudible : bool
}.

Record IntroRouteWaveformProps : Type := mkWaveform {
  waveform_amplitude : Z;
  waveform_frequency : Z;
  waveform_progress : Z;
  waveform_stepData : StepData
}.

Record IntroRouteAirGridProps : Type := mkAirGrid {
  grid_numOfRows : Z;
  grid_numOfCols : Z;
  grid_adjustedAudibleFrequencyamplitude : Z;
  grid_frequency : Z;
  grid_progress : Z;
  grid_stepData : StepData
}.

(** [WaveformPlayer]'s props; [player_children] is the function given as
    its children, from the [amplitude], [frequency] and [progress] the player
    calls it with. *)
Record WaveformPlayerProps : Type := mkPlayer {
  player_isPlaying : bool;
  player_amplitude : Z;
  player_frequency : Z;
  player_children : Z → Z → Z → IntroRouteWaveformProps * IntroRouteAirGridProps
}.

Record IntroRouteSectionProps (Node : Type) : Type := mkSectionProps {
  props_key : value;
  props_id : value;
  props_margin : Z;
  props_isSelected : bool;
  props_children : Node
}.
Arguments mkSectionProps {Node} _ _ _ _ _.
Arguments props_key {Node} _.
Arguments props_id {Node} _.
Arguments props_margin {Node} _.
Arguments props_isSelected {Node} _.
Arguments props_children {Node} _.

Record View (Node : Type) : Type := mkView {
  soundButtonToggle : SoundButtonToggleProps;
  oscillator : OscillatorProps;
  waveformPlayer : WaveformPlayerProps;
  sections : list (IntroRouteSectionProps Node);
  bottomTextSpacer_height : Z
}.
Arguments mkView {Node} _ _ _ _ _.
Arguments soundButtonToggle {Node} _.
Arguments oscillator {Node} _.
Arguments waveformPlayer {Node} _.
Arguments sections {Node} _.
Arguments bottomTextSpacer_height {Node} _.

(** The key [obj[v]] looks up: the value as a string. *)
Definition to_property_key (v : value) : string :=
  match v with
  | Undefined => "undefined"
  | Num n => pretty n
  | Str s => s
  end.

Section Rendering.
Context {Node : Type}.

(** [steps] and [stepsArray] come from [./IntroRoute.steps], which is not
    among the sources: the object [steps] by its own keys, [stepsArray] as
    the array it is. *)
Variable steps : gmap string StepData.
Variable stepsArray : list (Section Node).

(** The element of [stepsArray.map(...)] for one section; [None] is the
    [TypeError] of calling a [getMargin] that is absent. *)
Definition render_section (st : State) (section : Section Node)
  : option (IntroRouteSectionProps Node) :=
  getMargin ← section_getMargin section;
  Some {| props_key := section_id section;
          props_id := section_id section;
          props_margin := getMargin (windowHeight st);
          props_isSelected := strict_eq (currentStep st) (section_id section);
          props_children := section_children section |}.

(** [render()]; [None] is a [TypeError]: [steps[currentStep]] is
    [undefined] and a property of it is read, or a section has no
    [getMargin]. *)
Definition render (window : Window) (st : State) : option (View Node) :=
  stepData ← steps !! to_property_key (currentStep st);
  let isAudible := userEnabledSound st && makeSoundToggleable stepData in
  let adjustedAudibleFrequency := frequency st * 100 + 100 in
  rendered_sections ← mapM (render_section st) stepsArray;
  Some {| soundButtonToggle :=
            {| toggle_isVisible := makeSoundToggleable stepData;
               toggle_isAudible := userEnabledSound st |};
          oscillator :=
            {| oscillator_shape := shape st;
               oscillator_amplitude := amplitude st;
               oscillator_frequency := adjustedAudibleFrequency;
               oscillator_isAudible := isAudible |};
          waveformPlayer :=
            {| player_isPlaying := isPlaying stepData;
               player_amplitude :=
                 match amplitudeOverride stepData with
                 | Num override => override
                 | _ => amplitude st
                 end;
               player_frequency :=
                 match frequencyOverride stepData with
                 | Num override => override
                 | _ => frequency st
                 end;
               player_children := λ amplitude frequency progress,
                 ({| waveform_amplitude := amplitude;
                     waveform_frequency := frequency;
                     waveform_progress := progress;
                     waveform_stepData := stepData |},
                  {| grid_numOfRows := 26;
                     grid_numOfCols := 26;
                     grid_adjustedAudibleFrequencyamplitude := amplitude;
                     grid_frequency := frequency;
                     grid_progress := progress;
                     grid_stepData := stepData |}) |};
          sections := rendered_sections;
          bottomTextSpacer_height := innerHeight window |}.

End Rendering.

End IntroRoute.

(** ** constants *)

Module Constants.

(** [mobileRegex = /Android|webOS|iPhone|iPad|iPod|BlackBerry/i]: the
    alternatives of the pattern, each a literal word, compared ignoring
    case. *)
Definition mobileRegex : list string :=
  ["Android"; "webOS"; "iPhone"; "iPad"; "iPod"; "BlackBerry"]%string.

(** The character a pattern with the [i] flag compares: a lower-case letter
    [a]..[z] as its upper-case letter, any other character as itself. *)
Definition canonicalize (c : Ascii.ascii) : Ascii.ascii :=
  let n := Ascii.N_of_ascii c in
  if ((97 <=? n) && (n <=? 122))%N then Ascii.ascii_of_N (n - 32) else c.

(** The literal [word] matches at the start of [text]. *)
Fixpoint matches_at (word text : string) : bool :=
  match word with
  | EmptyString => true
  | String w word' =>
      match text with
      | EmptyString => false
      | String t text' =>
          Ascii.eqb (canonicalize w) (canonicalize t) && matches_at word' text'
      end
  end.

(** [regex.test(text)]: one of the alternatives matches at some position of
    [text], tried from the left. *)
Fixpoint test (alternatives : list string) (text : string) : bool :=
  existsb (λ word, matches_at word text) alternatives
  || match text with
     | EmptyString => false
     | String _ text' => test alternatives text'
     end.

(** [IS_MOBILE_USER_AGENT], for the [navigator.userAgent] given. *)
Definition IS_MOBILE_USER_AGENT (userAgent : string) : bool :=
  test mobileRegex userAgent.

End Constants.


(** ** Notions the properties are stated with *)

Module Notions.
Import JS DOM.

(** [next] is the element of [steps] immediately after (the first
    occurrence of) [id]. *)
Definition follows (steps : list value) (id next : value) : Prop :=
  ∃ before after, steps = before ++ id :: next :: after ∧ id ∉ before.

(** The section at index [i] is the first one whose lower boundary is at or
    below the top of the viewport. *)
Definition first_visible (sectionRefs : list HTMLElement) (i : nat) : Prop :=
  (∃ section, sectionRefs !! i = Some section
              ∧ 0 ≤ rect_bottom (getBoundingClientRect section))
  ∧ ∀ j section, (j < i)%nat → sectionRefs !! j = Some section →
                 rect_bottom (getBoundingClientRect section) < 0.

(** Every section's lower boundary is above the top of the viewport. *)
Definition all_above (sectionRefs : list HTMLElement) : Prop :=
  Forall (λ section, rect_bottom (getBoundingClientRect section) < 0) sectionRefs.

(** No element of [steps] is the number of its own position. *)
Definition no_step_is_its_index (steps : list value) : Prop :=
  ∀ i : nat, steps !! i ≠ Some (Num (Z.of_nat i)).

(** What [currentStep] holds is an element of [steps] or [undefined]. *)
Definition step_or_undefined (steps : list value) (v : value) : Prop :=
  v ∈ steps ∨ v = Undefined.

(** Consecutive runs are at least [len] apart. *)
Fixpoint spaced (len : Z) (runs : list Z) : Prop :=
  match runs with
  | [] => True
  | t :: later =>
      match later with
      | [] => True
      | u :: _ => t + len ≤ u
      end ∧ spaced len later
  end.

(** The instance has the props [p], its element is [el], and its observer
    observes [el]: the situation [componentDidMount] establishes. *)
Definition attached {Node : Type} (p : AvailableWidth.Props Node) (el : HTMLElement)
  (c : AvailableWidth.Instance Node) : Prop :=
  AvailableWidth.props c = p
  ∧ AvailableWidth.elem c = el
  ∧ AvailableWidth.observer c = Some (mkObserver [node el]).

(** The instance's observer observes nothing. *)
Definition detached {Node : Type} (c : AvailableWidth.Instance Node) : Prop :=
  AvailableWidth.observer c = Some (mkObserver []).

(** Two events do not write the same field of the state: they are not two
    setters of one field, and not both among the events that set
    [currentStep]. *)
Definition independent (a b : IntroRoute.event) : Prop :=
  match a, b with
  | IntroRoute.UpdateAmplitude _, IntroRoute.UpdateAmplitude _
  | IntroRoute.UpdateFrequency _, IntroRoute.UpdateFrequency _
  | IntroRoute.ToggleAudibility _, IntroRoute.ToggleAudibility _
  | IntroRoute.Resize _, IntroRoute.Resize _
  | IntroRoute.Scroll _, IntroRoute.Scroll _
  | IntroRoute.Scroll _, IntroRoute.Intersect _ _
  | IntroRoute.Intersect _ _, IntroRoute.Scroll _
  | IntroRoute.Intersect _ _, IntroRoute.Intersect _ _ => False
  | _, _ => True
  end.

(** The identifiers of the sections of [stepsArray], in order. *)
Definition section_ids {Node : Type} (stepsArray : list (IntroRoute.Section Node))
  : list value :=
  IntroRoute.section_id <$> stepsArray.

(** The sections [render] marks as selected. *)
Definition selected {Node : Type} (view : IntroRoute.View Node)
  : list (IntroRoute.IntroRouteSectionProps Node) :=
  filter (λ sp, IntroRoute.props_isSelected sp = true) (IntroRoute.sections view).

(** The widths the browser has measured for the component: the one
    [componentDidMount] reads and those of the entries it reports. *)
Definition measured (el : HTMLElement)
  (evs : list AvailableWidth.event) (w : Z) : Prop :=
  w = rect_width (getBoundingClientRect el)
  ∨ ∃ entries entry, AvailableWidth.Resized entries ∈ evs ∧ entry ∈ entries
                     ∧ w = rect_width (contentRect entry).

(** The instance has the props [p] and the element [el], and the output of
    its latest [render] call is that of its current state. *)
Definition up_to_date {Node : Type} (p : AvailableWidth.Props Node) (el : HTMLElement)
  (c : AvailableWidth.Instance Node) : Prop :=
  AvailableWidth.props c = p
  ∧ AvailableWidth.elem c = el
  ∧ head (AvailableWidth.rendered c)
    = Some (AvailableWidth.render p (AvailableWidth.state c)).

(** [text] with every character as the pattern compares it. *)
Fixpoint canonical (text : string) : string :=
  match text with
  | EmptyString => EmptyString
  | String c text' => String (Constants.canonicalize c) (canonical text')
  end.

(** [word] occurs in [text], ignoring case. *)
Definition occurs_ignoring_case (word text : string) : Prop :=
  ∃ before found after,
    text = (before +:+ found +:+ after)%string ∧ canonical found = canonical word.

End Notions.

(** ** Sample data for the closed examples *)

Module Sample.
Import JS DOM.

(** A table of three named steps. *)
Definition named_steps : list value := [Str "title"; Str "about"; Str "end"].

(** A table of two steps that are numbers, neither at its own index. *)
Definition swapped_steps : list value := [Num 1; Num 0].

Definition window : IntroRoute.Window := IntroRoute.mkWindow 800 [].

Definition section_at (n : nat) (bottom : Z) : HTMLElement :=
  mkElement n (mkRect 600 bottom).

(** All three sections scrolled out through the top. *)
Definition sections_above : list HTMLElement :=
  [section_at 0 (-900); section_at 1 (-500); section_at 2 (-40)].

(** The first section scrolled out, the second one in view. *)
Definition sections_second : list HTMLElement :=
  [section_at 0 (-120); section_at 1 310; section_at 2 940].

(** Two sections, the first scrolled out, the second in view. *)
Definition two_sections : list HTMLElement :=
  [section_at 0 (-120); section_at 1 310].

Definition entry : IntroRoute.IntersectionObserverEntry :=
  IntroRoute.mkIntersection false.

(** The times of a burst of five scroll events and a late sixth one, and of
    two resize events. *)
Definition scroll_burst : list Z := [0; 40; 90; 150; 220; 950].
Definition resize_pair : list Z := [10; 700].

(** A window on which other code listens already. *)
Definition busy_window : IntroRoute.Window :=
  IntroRoute.mkWindow 800 [("scroll"%string, Foreign 7); ("resize"%string, Foreign 3)].

(** An [AvailableWidth] whose children function returns the width, and the
    element it measures, 600 pixels wide. *)
Definition width_props : AvailableWidth.Props Z := AvailableWidth.mkProps id.
Definition container : HTMLElement := mkElement 4 (mkRect 600 400).

(** The container was resized to 480 pixels. *)
Definition narrower : ResizeObserverEntry := mkEntry 4 (mkRect 480 400).

(** The data of the three named steps and their sections. *)
Definition step_table : gmap string IntroRoute.StepData :=
  list_to_map
    [("title"%string, IntroRoute.mkStepData false false (Num 1) (Num 1));
     ("about"%string, IntroRoute.mkStepData true true Undefined Undefined);
     ("end"%string, IntroRoute.mkStepData false true Undefined (Num 2))].

Definition step_sections : list (IntroRoute.Section string) :=
  [IntroRoute.mkSection (Str "title") (Some (λ _, 0)) "Title"%string;
   IntroRoute.mkSection (Str "about") (Some (λ height, height / 2)) "About"%string;
   IntroRoute.mkSection (Str "end") (Some (λ height, height)) "End"%string].

(** The window after it was made 600 pixels high. *)
Definition lower_window : IntroRoute.Window := IntroRoute.mkWindow 600 [].

(** The user agent of a phone, and the same in upper case. *)
Definition phone : string :=
  "Mozilla/5.0 (iPhone; CPU iPhone OS 11_0 like Mac OS X)".
Definition loud_phone : string :=
  "MOZILLA/5.0 (IPHONE; CPU IPHONE OS 11_0 LIKE MAC OS X)".

Definition at_step (v : value) : IntroRoute.State :=
  IntroRoute.mkState v 800 1 1 "sine" false.

End Sample.


(** * Properties *)

Import JS DOM Notions.

(** ** Array helpers *)

Section ArrayFacts.

Lemma strict_eq_true (a b : value) : strict_eq a b = true ↔ a = b.
Proof. unfold strict_eq. apply bool_decide_eq_true. Qed.

Lemma strict_eq_false (a b : value) : strict_eq a b = false ↔ a ≠ b.
Proof. unfold strict_eq. apply bool_decide_eq_false. Qed.

Lemma strict_neq_true (a b : value) : strict_neq a b = true ↔ a ≠ b.
Proof.
  unfold strict_neq. rewrite negb_true_iff. apply strict_eq_false.
Qed.

Lemma get_nat (arr : list value) (i : nat) :
  get arr (Z.of_nat i) = default Undefined (arr !! i).
Proof.
  unfold get. destruct (Z.ltb_spec (Z.of_nat i) 0) as [Hneg|_]; [lia|].
  by rewrite Nat2Z.id.
Qed.

Lemma get_negative (arr : list value) (i : Z) : i < 0 → get arr i = Undefined.
Proof.
  intros Hi. unfold get. destruct (Z.ltb_spec i 0); [done | lia].
Qed.

Lemma get_elem_or_undefined (arr : list value) (i : Z) :
  get arr i ∈ arr ∨ get arr i = Undefined.
Proof.
  unfold get. destruct (i <? 0); [by right|].
  destruct (arr !! Z.to_nat i) as [v|] eqn:Hlook; simpl; [left | by right].
  by eapply list_elem_of_lookup_2.
Qed.

Context {A : Type} (p : A → bool).

Lemma findIndex_from_shift (arr : list A) (k : Z) :
  findIndex_from p arr k = -1 ∧ Forall (λ x, p x = false) arr
  ∨ ∃ i x, findIndex_from p arr k = k + Z.of_nat i
           ∧ arr !! i = Some x ∧ p x = true
           ∧ ∀ j y, (j < i)%nat → arr !! j = Some y → p y = false.
Proof.
  revert k. induction arr as [|a arr IH]; intros k; simpl.
  - left. by split.
  - destruct (p a) eqn:Hpa.
    + right. exists 0%nat, a. repeat split; [lia | done | intros j y Hj; lia].
    + destruct (IH (k + 1)) as [[Hnone Hall] | (i & x & Hres & Hlook & Hpx & Hmin)].
      * left. split; [done | by constructor].
      * right. exists (S i), x. repeat split; [lia | done | done |].
        intros [|j] y Hj Hy; simpl in Hy; [by simplify_eq|].
        apply (Hmin j); [lia | done].
Qed.

Lemma findIndex_cases (arr : list A) :
  findIndex p arr = -1 ∧ Forall (λ x, p x = false) arr
  ∨ ∃ i x, findIndex p arr = Z.of_nat i
           ∧ arr !! i = Some x ∧ p x = true
           ∧ ∀ j y, (j < i)%nat → arr !! j = Some y → p y = false.
Proof.
  unfold findIndex.
  destruct (findIndex_from_shift arr 0) as [?|(i & x & Hres & ?)]; [by left|].
  right. exists i, x. by rewrite Hres.
Qed.

Lemma findIndex_first (arr : list A) (i : nat) (x : A) :
  arr !! i = Some x → p x = true →
  (∀ j y, (j < i)%nat → arr !! j = Some y → p y = false) →
  findIndex p arr = Z.of_nat i.
Proof.
  intros Hlook Hpx Hmin.
  destruct (findIndex_cases arr) as [[_ Hall] | (i' & x' & Hres & Hlook' & Hpx' & Hmin')].
  - rewrite Forall_lookup in Hall. specialize (Hall i x Hlook). simpl in Hall.
    congruence.
  - rewrite Hres. f_equal.
    destruct (Nat.lt_trichotomy i i') as [Hlt|[->|Hgt]]; [|done|].
    + specialize (Hmin' i x Hlt Hlook). congruence.
    + specialize (Hmin i' x' Hgt Hlook'). congruence.
Qed.

Lemma findIndex_none (arr : list A) :
  Forall (λ x, p x = false) arr → findIndex p arr = -1.
Proof.
  intros Hall.
  destruct (findIndex_cases arr) as [[? _] | (i & x & _ & Hlook & Hpx & _)]; [done|].
  rewrite Forall_lookup in Hall. specialize (Hall i x Hlook). simpl in Hall.
  congruence.
Qed.

End ArrayFacts.

Lemma indexOf_first_occurrence (before after : list value) (v : value) :
  v ∉ before → indexOf (before ++ v :: after) v = Z.of_nat (length before).
Proof.
  intros Hfresh. unfold indexOf.
  apply findIndex_first with (x := v).
  - by rewrite list_lookup_middle.
  - by apply strict_eq_true.
  - intros j y Hj Hy. apply strict_eq_false. intros ->.
    rewrite lookup_app_l in Hy by done.
    apply Hfresh. by eapply list_elem_of_lookup_2.
Qed.

Lemma get_after_first_occurrence (before after : list value) (v next : value) :
  v ∉ before →
  get (before ++ v :: next :: after)
      (indexOf (before ++ v :: next :: after) v + 1) = next.
Proof.
  intros Hfresh. rewrite indexOf_first_occurrence by done.
  replace (Z.of_nat (length before) + 1) with (Z.of_nat (S (length before))) by lia.
  rewrite get_nat.
  assert ((before ++ v :: next :: after) !! S (length before) = Some next) as ->; [|done].
  rewrite (cons_middle v before (next :: after)), app_assoc.
  apply list_lookup_middle. rewrite length_app. simpl. lia.
Qed.

Lemma get_indexOf (arr : list value) (v : value) :
  v ∈ arr → get arr (indexOf arr v) = v.
Proof.
  intros (before & after & -> & Hfresh)%list_elem_of_split_l.
  rewrite indexOf_first_occurrence by done.
  by rewrite get_nat, list_lookup_middle.
Qed.

(** ** IntroRoute: the setters *)

Section Setters.
Import IntroRoute.

(** C9: each setter handler updates exactly one field of the state and
    leaves every other field as it was: [handleUpdateAmplitude] only
    [amplitude], [handleUpdateFrequency] only [frequency],
    [handleToggleAudibility] only [userEnabledSound], [handleResize] only
    [windowHeight] (which becomes the window's inner height); none of them
    changes [currentStep]. *)
Theorem setters_update_one_field (st : State) (val : Z) (flag : bool) (window : Window) :
  (handleUpdateAmplitude val st
   = mkState (currentStep st) (windowHeight st) val (frequency st)
             (shape st) (userEnabledSound st))
  ∧ (handleUpdateFrequency val st
     = mkState (currentStep st) (windowHeight st) (amplitude st) val
               (shape st) (userEnabledSound st))
  ∧ (handleToggleAudibility flag st
     = mkState (currentStep st) (windowHeight st) (amplitude st) (frequency st)
               (shape st) flag)
  ∧ (handleResize window st
     = mkState (currentStep st) (innerHeight window) (amplitude st) (frequency st)
               (shape st) (userEnabledSound st))
  ∧ currentStep (handleUpdateAmplitude val st) = currentStep st
  ∧ currentStep (handleUpdateFrequency val st) = currentStep st
  ∧ currentStep (handleToggleAudibility flag st) = currentStep st
  ∧ currentStep (handleResize window st) = currentStep st.
Proof. by repeat split. Qed.

End Setters.

(** ** IntroRoute: intersections *)

Section Intersections.
Import IntroRoute.
Variable INTRO_STEPS : list value.

Lemma intersect_direction_forwards (id : value) (st : State) :
  intersect_direction id st = forwards ↔ id = currentStep st.
Proof.
  unfold intersect_direction.
  destruct (strict_eq id (currentStep st)) eqn:Heq.
  - apply strict_eq_true in Heq. by split.
  - apply strict_eq_false in Heq. split; [discriminate | done].
Qed.

Lemma intersect_direction_backwards (id : value) (st : State) :
  intersect_direction id st = backwards ↔ id ≠ currentStep st.
Proof.
  rewrite <- intersect_direction_forwards.
  destruct (intersect_direction id st); split; (done || congruence).
Qed.

Lemma last_not_first_occurrence (before rest : list value) (id : value) :
  last (before ++ id :: rest) ≠ Some id → ∃ next after, rest = next :: after.
Proof.
  destruct rest as [|next after]; [|by eauto].
  intros Hlast. destruct Hlast. apply last_snoc.
Qed.

(** C3, as amended: for an intersection reported with a step identifier
    [id] of [INTRO_STEPS], the direction is forwards exactly when [id] is the
    current step and backwards otherwise; going forwards, when [id] is not
    the last element of [INTRO_STEPS], the new current step is the element
    immediately after [id]; going backwards it is [id] itself. *)
Theorem handleIntersect_direction_and_step
    (id : value) (entry : IntersectionObserverEntry) (st : State) :
  id ∈ INTRO_STEPS →
  (intersect_direction id st = forwards ↔ id = currentStep st)
  ∧ (intersect_direction id st = backwards ↔ id ≠ currentStep st)
  ∧ (intersect_direction id st = forwards → last INTRO_STEPS ≠ Some id →
     follows INTRO_STEPS id (currentStep (handleIntersect INTRO_STEPS id entry st)))
  ∧ (intersect_direction id st = backwards →
     currentStep (handleIntersect INTRO_STEPS id entry st) = id).
Proof.
  intros Hin.
  split; [apply intersect_direction_forwards|].
  split; [apply intersect_direction_backwards|].
  split.
  - intros Hdir Hlast. unfold handleIntersect. rewrite Hdir. simpl.
    apply list_elem_of_split_l in Hin as (before & rest & Hsplit & Hfresh).
    rewrite Hsplit in Hlast.
    destruct (last_not_first_occurrence _ _ _ Hlast) as (next & after & ->).
    rewrite Hsplit, get_after_first_occurrence by done.
    by exists before, after.
  - intros Hdir. unfold handleIntersect. rewrite Hdir. simpl.
    by apply get_indexOf.
Qed.

End Intersections.

(** C3 holds at a step that has a successor and at a step entering again. *)
Lemma handleIntersect_direction_and_step_witness :
  Str "about" ∈ Sample.named_steps
  ∧ IntroRoute.intersect_direction (Str "about") (Sample.at_step (Str "about"))
    = IntroRoute.forwards
  ∧ last Sample.named_steps ≠ Some (Str "about")
  ∧ follows Sample.named_steps (Str "about")
      (IntroRoute.currentStep
         (IntroRoute.handleIntersect Sample.named_steps (Str "about") Sample.entry
            (Sample.at_step (Str "about")))).
Proof.
  assert (Hin : Str "about" ∈ Sample.named_steps) by (unfold Sample.named_steps; repeat constructor).
  assert (Hlast : last Sample.named_steps ≠ Some (Str "about")) by (vm_compute; congruence).
  destruct (handleIntersect_direction_and_step Sample.named_steps (Str "about")
              Sample.entry (Sample.at_step (Str "about")) Hin)
    as (_ & _ & Hforwards & _).
  repeat split; [done | done | ].
  apply Hforwards; [reflexivity | done].
Defined.

(** C3 as stated fails at the last step: the intersection is taken as a
    forward scroll, and there is no element after [id] to become current. *)
Lemma handleIntersect_last_step_has_no_successor :
  let st := Sample.at_step (Str "end") in
  Str "end" ∈ Sample.named_steps
  ∧ IntroRoute.intersect_direction (Str "end") st = IntroRoute.forwards
  ∧ IntroRoute.currentStep
      (IntroRoute.handleIntersect Sample.named_steps (Str "end") Sample.entry st)
    = Undefined
  ∧ ¬ follows Sample.named_steps (Str "end")
        (IntroRoute.currentStep
           (IntroRoute.handleIntersect Sample.named_steps (Str "end") Sample.entry st)).
Proof.
  simpl. split; [unfold Sample.named_steps; repeat constructor|]. split; [reflexivity|]. split; [reflexivity|].
  intros (before & after & Hsplit & _). vm_compute in Hsplit.
  destruct before as [|? [|? [|? [|? ?]]]]; simpl in Hsplit; discriminate.
Qed.

(** ** IntroRoute: the scroll fallback *)

Section Scrolling.
Import IntroRoute.
Variable INTRO_STEPS : list value.
Variable DEFAULT_WAVEFORM_SHAPE : WaveformShape.

Lemma findIndex_all_above (sectionRefs : list HTMLElement) :
  all_above sectionRefs → findIndex in_or_below_viewport sectionRefs = -1.
Proof.
  intros Habove. apply findIndex_none.
  eapply Forall_impl; [exact Habove|]. intros section Hsection. simpl in Hsection.
  unfold in_or_below_viewport. apply Z.leb_gt. exact Hsection.
Qed.

Lemma findIndex_first_visible (sectionRefs : list HTMLElement) (i : nat) :
  first_visible sectionRefs i →
  findIndex in_or_below_viewport sectionRefs = Z.of_nat i.
Proof.
  intros [(section & Hlook & Hbottom) Hmin].
  apply findIndex_first with (x := section); [done | |].
  - unfold in_or_below_viewport. by apply Z.leb_le.
  - intros j y Hj Hy. unfold in_or_below_viewport. apply Z.leb_gt. by eapply Hmin.
Qed.

Lemma handleScroll_guard_not_number (k : Z) (st : State) :
  ¬ is_number (currentStep st) → handleScroll_guard k st = true.
Proof.
  intros Hnum. unfold handleScroll_guard. apply strict_neq_true.
  intros Heq. apply Hnum. by rewrite <- Heq.
Qed.

Lemma handleScroll_applied (sectionRefs : list HTMLElement) (st : State) :
  handleScroll_guard (findIndex in_or_below_viewport sectionRefs) st = true →
  handleScroll INTRO_STEPS sectionRefs st
  = setState (mkPartial
                (Some (get INTRO_STEPS (findIndex in_or_below_viewport sectionRefs)))
                None None None None None) st.
Proof. intros Hguard. unfold handleScroll. by rewrite Hguard. Qed.

(** *** What [currentStep] can hold *)

Lemma step_or_undefined_get (i : Z) : step_or_undefined INTRO_STEPS (get INTRO_STEPS i).
Proof. apply get_elem_or_undefined. Qed.

Lemma step_keeps_step_or_undefined (st : State) (ev : event) :
  step_or_undefined INTRO_STEPS (currentStep st) →
  step_or_undefined INTRO_STEPS (currentStep (step INTRO_STEPS st ev)).
Proof.
  intros Hst. destruct ev; simpl; try done.
  - unfold handleScroll. destruct (handleScroll_guard _ _); [simpl|done].
    apply step_or_undefined_get.
  - unfold handleIntersect. simpl. destruct (intersect_direction _ _);
      apply step_or_undefined_get.
Qed.

Lemma foldl_step_or_undefined (evs : list event) (st : State) :
  step_or_undefined INTRO_STEPS (currentStep st) →
  step_or_undefined INTRO_STEPS (currentStep (foldl (step INTRO_STEPS) st evs)).
Proof.
  revert st. induction evs as [|ev evs IH]; intros st Hst; simpl; [done|].
  apply IH. by apply step_keeps_step_or_undefined.
Qed.

Lemma run_step_or_undefined (window : Window) (evs : list event) :
  step_or_undefined INTRO_STEPS (currentStep (run INTRO_STEPS DEFAULT_WAVEFORM_SHAPE window evs)).
Proof.
  unfold run. apply foldl_step_or_undefined. simpl.
  apply step_or_undefined_get.
Qed.

Lemma step_or_undefined_not_number (v : value) :
  Forall (λ s, ¬ is_number s) INTRO_STEPS →
  step_or_undefined INTRO_STEPS v → ¬ is_number v.
Proof.
  intros Hsteps [Hin| ->]; [|by intros []].
  rewrite Forall_forall in Hsteps. by apply Hsteps.
Qed.

Lemma names_are_not_numbers (steps : list value) :
  Forall is_name steps → Forall (λ s, ¬ is_number s) steps.
Proof. intros Hnames. eapply Forall_impl; [exact Hnames|]. intros []; simpl; tauto. Qed.

Lemma undefined_is_no_name (steps : list value) :
  Forall is_name steps → Undefined ∉ steps.
Proof.
  intros Hnames Hin. rewrite Forall_forall in Hnames. by apply (Hnames Undefined).
Qed.

(** C4: on a (debounced) scroll event, when no step identifier is a number
    and there is one section per step, [handleScroll] makes the step of the
    first section whose bounding-rectangle bottom is greater than or equal to
    zero the current step. *)
Theorem handleScroll_selects_first_visible
    (window : Window) (evs : list event) (sectionRefs : list HTMLElement) (i : nat) :
  Forall (λ s, ¬ is_number s) INTRO_STEPS →
  length sectionRefs = length INTRO_STEPS →
  first_visible sectionRefs i →
  ∃ step, INTRO_STEPS !! i = Some step
          ∧ currentStep (handleScroll INTRO_STEPS sectionRefs
                           (run INTRO_STEPS DEFAULT_WAVEFORM_SHAPE window evs)) = step.
Proof.
  intros Hsteps Hlen Hfirst.
  pose proof (findIndex_first_visible _ _ Hfirst) as Hindex.
  destruct Hfirst as [(section & Hlook & _) _].
  apply lookup_lt_Some in Hlook. rewrite Hlen in Hlook.
  apply lookup_lt_is_Some_2 in Hlook as [step Hstep].
  exists step. split; [done|].
  rewrite handleScroll_applied.
  - simpl. by rewrite Hindex, get_nat, Hstep.
  - apply handleScroll_guard_not_number.
    eapply step_or_undefined_not_number; [done | apply run_step_or_undefined].
Qed.

(** *** Leaving the step table *)

Lemma handleScroll_no_section (sectionRefs : list HTMLElement) (st : State) :
  findIndex in_or_below_viewport sectionRefs = -1 →
  ¬ is_number (currentStep st) →
  handleScroll INTRO_STEPS sectionRefs st
  = setState (mkPartial (Some Undefined) None None None None None) st.
Proof.
  intros Hnone Hnum.
  rewrite handleScroll_applied by by apply handleScroll_guard_not_number.
  by rewrite Hnone, get_negative.
Qed.

(** Every section in turn reports the intersection of leaving through the
    top while its step is current. *)
Lemma intersect_each_remaining_step
    (entry : IntersectionObserverEntry) (rest before : list value) (st : State) :
  INTRO_STEPS = before ++ rest →
  NoDup INTRO_STEPS →
  currentStep st = get INTRO_STEPS (Z.of_nat (length before)) →
  currentStep (foldl (step INTRO_STEPS) st ((λ id, Intersect id entry) <$> rest))
  = Undefined.
Proof.
  revert before st. induction rest as [|id rest IH]; intros before st Hsplit Hnodup Hst.
  - simpl. rewrite Hst, get_nat, Hsplit, app_nil_r.
    by rewrite lookup_ge_None_2.
  - simpl. apply (IH (before ++ [id])).
    + by rewrite <- app_assoc.
    + done.
    + assert (id ∉ before) as Hfresh.
      { intros Hin. rewrite Hsplit in Hnodup.
        apply NoDup_app in Hnodup as (_ & Hdisjoint & _).
        apply (Hdisjoint id Hin). by left. }
      assert (currentStep st = id) as Hcurrent.
      { by rewrite Hst, get_nat, Hsplit, list_lookup_middle. }
      unfold handleIntersect, intersect_direction. simpl.
      rewrite Hcurrent.
      replace (strict_eq id id) with true by (symmetry; by apply strict_eq_true).
      rewrite Hsplit at 2. rewrite indexOf_first_occurrence by done.
      f_equal. rewrite length_app. simpl. lia.
Qed.

(** C1: [currentStep] does not stay within [INTRO_STEPS]. With named,
    pairwise different steps, the state after one scroll event that finds
    every section above the viewport, and the state after every section in
    turn has reported its intersection, both hold [undefined], which is no
    element of [INTRO_STEPS]. *)
Theorem currentStep_leaves_INTRO_STEPS
    (window : Window) (sectionRefs : list HTMLElement)
    (entry : IntersectionObserverEntry) :
  Forall is_name INTRO_STEPS →
  NoDup INTRO_STEPS →
  all_above sectionRefs →
  let after_scroll :=
    run INTRO_STEPS DEFAULT_WAVEFORM_SHAPE window [Scroll sectionRefs] in
  let after_last :=
    run INTRO_STEPS DEFAULT_WAVEFORM_SHAPE window
        ((λ id, Intersect id entry) <$> INTRO_STEPS) in
  (currentStep after_scroll = Undefined ∧ currentStep after_scroll ∉ INTRO_STEPS)
  ∧ (currentStep after_last = Undefined ∧ currentStep after_last ∉ INTRO_STEPS).
Proof.
  intros Hnames Hnodup Habove after_scroll after_last.
  pose proof (undefined_is_no_name _ Hnames) as Hundef.
  assert (currentStep after_scroll = Undefined) as Hscroll.
  { unfold after_scroll, run. simpl.
    rewrite handleScroll_no_section; [done | by apply findIndex_all_above |].
    simpl. eapply step_or_undefined_not_number;
      [by apply names_are_not_numbers | apply step_or_undefined_get]. }
  assert (currentStep after_last = Undefined) as Hlast.
  { unfold after_last, run.
    by apply (intersect_each_remaining_step entry INTRO_STEPS []). }
  rewrite Hscroll, Hlast. done.
Qed.

(** C2: when no section is found ([findIndex] returns [-1]) and the current
    step is not a number, [handleScroll] does not leave the state alone: it
    sets [currentStep] to [INTRO_STEPS[-1]], that is [undefined], so a
    current step that was defined is lost. *)
Theorem handleScroll_no_section_overwrites
    (sectionRefs : list HTMLElement) (st : State) :
  findIndex in_or_below_viewport sectionRefs = -1 →
  ¬ is_number (currentStep st) →
  currentStep (handleScroll INTRO_STEPS sectionRefs st) = Undefined
  ∧ (currentStep st ≠ Undefined → handleScroll INTRO_STEPS sectionRefs st ≠ st).
Proof.
  intros Hnone Hnum. rewrite handleScroll_no_section by done.
  split; [done|]. intros Hdefined Heq. apply Hdefined.
  by rewrite <- Heq.
Qed.

End Scrolling.

(** ** IntroRoute: the guard of the scroll fallback *)

Section Guard.
Import IntroRoute.
Variable INTRO_STEPS : list value.
Variable DEFAULT_WAVEFORM_SHAPE : WaveformShape.

Lemma get_is_own_index (k : Z) :
  no_step_is_its_index INTRO_STEPS → get INTRO_STEPS k ≠ Num k.
Proof.
  intros Hown Heq. unfold get in Heq.
  destruct (Z.ltb_spec k 0) as [Hneg|Hpos]; [discriminate|].
  destruct (INTRO_STEPS !! Z.to_nat k) as [v|] eqn:Hlook; simpl in Heq; [|discriminate].
  apply (Hown (Z.to_nat k)). rewrite Hlook, Heq. do 2 f_equal. lia.
Qed.

(** C10, as amended: the guard of [handleScroll] compares the index
    [findIndex] returned with the current step identifier. Whenever no
    element of [INTRO_STEPS] equals its own numeric index, the guard is true
    on every invocation in which the computed step
    [INTRO_STEPS[activeSectionIndex]] already is the current step, so the
    [setState] call is applied even then; when moreover no element of
    [INTRO_STEPS] is a number, the guard is true, and [setState] applied, on
    every invocation, after any sequence of events. *)
Theorem handleScroll_guard_compares_index_with_step
    (sectionRefs : list HTMLElement) :
  no_step_is_its_index INTRO_STEPS →
  let activeSectionIndex := findIndex in_or_below_viewport sectionRefs in
  let update :=
    setState (mkPartial (Some (get INTRO_STEPS activeSectionIndex))
                        None None None None None) in
  (∀ st : State,
     get INTRO_STEPS activeSectionIndex = currentStep st →
     handleScroll_guard activeSectionIndex st = true
     ∧ handleScroll INTRO_STEPS sectionRefs st = update st)
  ∧ (Forall (λ s, ¬ is_number s) INTRO_STEPS →
     ∀ (window : Window) (evs : list event),
       let st := run INTRO_STEPS DEFAULT_WAVEFORM_SHAPE window evs in
       handleScroll_guard activeSectionIndex st = true
       ∧ handleScroll INTRO_STEPS sectionRefs st = update st).
Proof.
  intros Hown activeSectionIndex update. split.
  - intros st Hsame.
    assert (handleScroll_guard activeSectionIndex st = true) as Hguard.
    { unfold handleScroll_guard. apply strict_neq_true. rewrite <- Hsame.
      intros Heq. by apply (get_is_own_index activeSectionIndex). }
    split; [done|]. by apply handleScroll_applied.
  - intros Hsteps window evs st.
    assert (handleScroll_guard activeSectionIndex st = true) as Hguard.
    { apply handleScroll_guard_not_number.
      eapply step_or_undefined_not_number; [done | apply run_step_or_undefined]. }
    split; [done|]. by apply handleScroll_applied.
Qed.

End Guard.

Lemma named_steps_are_names : Forall is_name Sample.named_steps.
Proof. unfold Sample.named_steps. repeat constructor. Qed.

Lemma named_steps_no_number : Forall (λ s, ¬ is_number s) Sample.named_steps.
Proof. unfold Sample.named_steps. repeat constructor; by intros []. Qed.

Lemma named_steps_NoDup : NoDup Sample.named_steps.
Proof. apply (bool_decide_unpack _). vm_compute. exact I. Qed.

Lemma named_steps_not_own_index : no_step_is_its_index Sample.named_steps.
Proof. intros [|[|[|i]]]; simpl; discriminate. Qed.

Lemma sections_above_all_above : all_above Sample.sections_above.
Proof. unfold Sample.sections_above. repeat constructor. Qed.

Lemma sections_second_first_visible : first_visible Sample.sections_second 1.
Proof.
  split.
  - eexists. split; [reflexivity|]. simpl. lia.
  - intros [|j] section Hj Hlook; [|lia].
    simpl in Hlook. injection Hlook as <-. simpl. lia.
Qed.

(** C1 at the sample table: after a scroll event with every section above
    the viewport, and after the three sections reported in turn, the current
    step is no element of the table. *)
Lemma currentStep_leaves_INTRO_STEPS_witness :
  Forall is_name Sample.named_steps
  ∧ NoDup Sample.named_steps
  ∧ all_above Sample.sections_above
  ∧ (IntroRoute.currentStep
       (IntroRoute.run Sample.named_steps "sine" Sample.window
          [IntroRoute.Scroll Sample.sections_above])
     ∉ Sample.named_steps)
  ∧ (IntroRoute.currentStep
       (IntroRoute.run Sample.named_steps "sine" Sample.window
          ((λ id, IntroRoute.Intersect id Sample.entry) <$> Sample.named_steps))
     ∉ Sample.named_steps).
Proof.
  pose proof (currentStep_leaves_INTRO_STEPS Sample.named_steps "sine"
                Sample.window Sample.sections_above Sample.entry
                named_steps_are_names named_steps_NoDup sections_above_all_above)
    as [[_ Hscroll] [_ Hlast]].
  exact (conj named_steps_are_names
           (conj named_steps_NoDup
              (conj sections_above_all_above (conj Hscroll Hlast)))).
Defined.

(** C2 at the sample table: the step "about" is current, no section is
    found, and the current step becomes [undefined]. *)
Lemma handleScroll_no_section_overwrites_witness :
  findIndex IntroRoute.in_or_below_viewport Sample.sections_above = -1
  ∧ ¬ is_number (IntroRoute.currentStep (Sample.at_step (Str "about")))
  ∧ IntroRoute.currentStep
      (IntroRoute.handleScroll Sample.named_steps Sample.sections_above
         (Sample.at_step (Str "about"))) = Undefined
  ∧ IntroRoute.handleScroll Sample.named_steps Sample.sections_above
      (Sample.at_step (Str "about")) ≠ Sample.at_step (Str "about").
Proof.
  assert (findIndex IntroRoute.in_or_below_viewport Sample.sections_above = -1)
    as Hnone by reflexivity.
  assert (¬ is_number (IntroRoute.currentStep (Sample.at_step (Str "about"))))
    as Hnum by (simpl; tauto).
  destruct (handleScroll_no_section_overwrites Sample.named_steps
              Sample.sections_above (Sample.at_step (Str "about")) Hnone Hnum)
    as [Hundef Hchanged].
  refine (conj Hnone (conj Hnum (conj Hundef (Hchanged _)))).
  simpl. discriminate.
Defined.

(** C4 at the sample table: the second section is the first one in view, and
    its step "about" becomes current after the first section left. *)
Lemma handleScroll_selects_first_visible_witness :
  Forall (λ s, ¬ is_number s) Sample.named_steps
  ∧ length Sample.sections_second = length Sample.named_steps
  ∧ first_visible Sample.sections_second 1
  ∧ ∃ step, Sample.named_steps !! 1%nat = Some step
            ∧ IntroRoute.currentStep
                (IntroRoute.handleScroll Sample.named_steps Sample.sections_second
                   (IntroRoute.run Sample.named_steps "sine" Sample.window
                      [IntroRoute.UpdateAmplitude 2])) = step.
Proof.
  assert (length Sample.sections_second = length Sample.named_steps)
    as Hlen by reflexivity.
  refine (conj named_steps_no_number
            (conj Hlen (conj sections_second_first_visible _))).
  exact (handleScroll_selects_first_visible Sample.named_steps "sine" Sample.window
           [IntroRoute.UpdateAmplitude 2] Sample.sections_second 1
           named_steps_no_number Hlen sections_second_first_visible).
Defined.

(** C10 at the sample table: "about" is current and its own section is the
    first in view; the guard is true and the state is set again. *)
Lemma handleScroll_guard_compares_index_with_step_witness :
  no_step_is_its_index Sample.named_steps
  ∧ get Sample.named_steps
      (findIndex IntroRoute.in_or_below_viewport Sample.sections_second)
    = IntroRoute.currentStep (Sample.at_step (Str "about"))
  ∧ Forall (λ s, ¬ is_number s) Sample.named_steps
  ∧ IntroRoute.handleScroll_guard
      (findIndex IntroRoute.in_or_below_viewport Sample.sections_second)
      (Sample.at_step (Str "about")) = true
  ∧ IntroRoute.handleScroll_guard
      (findIndex IntroRoute.in_or_below_viewport Sample.sections_second)
      (IntroRoute.run Sample.named_steps "sine" Sample.window []) = true.
Proof.
  assert (get Sample.named_steps
            (findIndex IntroRoute.in_or_below_viewport Sample.sections_second)
          = IntroRoute.currentStep (Sample.at_step (Str "about")))
    as Hsame by reflexivity.
  destruct (handleScroll_guard_compares_index_with_step Sample.named_steps "sine"
              Sample.sections_second named_steps_not_own_index)
    as [Hcurrent Halways].
  exact (conj named_steps_not_own_index
           (conj Hsame
              (conj named_steps_no_number
                 (conj (proj1 (Hcurrent _ Hsame))
                       (proj1 (Halways named_steps_no_number Sample.window [])))))).
Defined.

(** C10 as stated fails for steps that are numbers: neither element of the
    table [1; 0] is at its own index, the component starts at step [1], the
    scroll fallback finds the section of index [1], and the guard [1 !== 1]
    is false, so [setState] is not applied. *)
Lemma handleScroll_guard_false_on_swapped_steps :
  let st := IntroRoute.run Sample.swapped_steps "sine" Sample.window [] in
  let activeSectionIndex :=
    findIndex IntroRoute.in_or_below_viewport Sample.two_sections in
  no_step_is_its_index Sample.swapped_steps
  ∧ IntroRoute.currentStep st = Num 1
  ∧ activeSectionIndex = 1
  ∧ IntroRoute.handleScroll_guard activeSectionIndex st = false
  ∧ IntroRoute.handleScroll Sample.swapped_steps Sample.two_sections st = st.
Proof.
  simpl. split; [|by repeat split].
  intros [|[|i]]; simpl; discriminate.
Qed.

(** ** The debounced handlers *)

Lemma filter_nothing {A : Type} (P : A → Prop) `{!∀ x, Decision (P x)} (l : list A) :
  Forall (λ x, ¬ P x) l → filter P l = [].
Proof.
  induction 1 as [|x l Hx _ IH]; [done|].
  by rewrite filter_cons_False.
Qed.

Section Debounce.
Import Utils.
Variable wait : Z.
Hypothesis wait_nonneg : 0 ≤ wait.

Lemma executions_not_before_due (calls : list Z) (due : Z) :
  StronglySorted Z.le calls →
  Forall (λ t, due ≤ t + wait) calls →
  Forall (λ run, due ≤ run) (executions wait (Some due) calls).
Proof.
  revert due. induction calls as [|t later IH]; intros due Hsorted Hrecent; simpl.
  - by repeat constructor.
  - apply StronglySorted_inv in Hsorted as [Hlater Hle].
    apply Forall_cons in Hrecent as [Hrecent _].
    assert (Forall (λ run, t + wait ≤ run) (executions wait (Some (t + wait)) later))
      as Hrest.
    { apply IH; [done|]. eapply Forall_impl; [exact Hle|]. simpl. intros; lia. }
    destruct (Z.leb_spec due t).
    + constructor; [lia|]. eapply Forall_impl; [exact Hrest|]. simpl. intros; lia.
    + eapply Forall_impl; [exact Hrest|]. simpl. intros; lia.
Qed.

Lemma spaced_cons (t : Z) (later : list Z) :
  Forall (λ run, t + wait ≤ run) later → spaced wait later → spaced wait (t :: later).
Proof.
  intros Hfar Hlater. simpl. split; [|done].
  destruct later as [|u ?]; [done|]. by apply Forall_cons in Hfar as [? _].
Qed.

Lemma executions_spaced (calls : list Z) (pending : option Z) :
  StronglySorted Z.le calls →
  (∀ due, pending = Some due → Forall (λ t, due ≤ t + wait) calls) →
  spaced wait (executions wait pending calls).
Proof.
  revert pending. induction calls as [|t later IH]; intros pending Hsorted Hrecent; simpl.
  - by destruct pending.
  - apply StronglySorted_inv in Hsorted as [Hlater Hle].
    assert (Forall (λ u, t + wait ≤ u + wait) later) as Hnext.
    { eapply Forall_impl; [exact Hle|]. simpl. intros; lia. }
    assert (spaced wait (executions wait (Some (t + wait)) later)) as Hrest.
    { apply IH; [done|]. by intros due [= <-]. }
    destruct pending as [due|]; [|done].
    destruct (Z.leb_spec due t); [|done].
    apply spaced_cons; [|done].
    pose proof (executions_not_before_due later (t + wait) Hlater Hnext) as Hlow.
    eapply Forall_impl; [exact Hlow|]. simpl. intros; lia.
Qed.

Lemma spaced_all_later (t : Z) (later : list Z) :
  spaced wait (t :: later) → Forall (λ run, t + wait ≤ run) later.
Proof.
  revert t. induction later as [|u later IH]; intros t [Hgap Hrest]; [done|].
  constructor; [done|].
  eapply Forall_impl; [exact (IH u Hrest)|]. simpl. intros; lia.
Qed.

Lemma spaced_runs_within (from : Z) (runs : list Z) :
  spaced wait runs → (runs_within from wait runs ≤ 1)%nat.
Proof.
  unfold runs_within. induction runs as [|t later IH]; intros Hspaced; [simpl; lia|].
  pose proof (spaced_all_later _ _ Hspaced) as Hfar.
  destruct Hspaced as [_ Hlater].
  destruct (decide (from ≤ t ∧ t < from + wait)) as [Hin|Hout].
  - rewrite filter_cons_True by done.
    assert (filter (λ u, from ≤ u ∧ u < from + wait) later = []) as ->; [|simpl; lia].
    apply filter_nothing. eapply Forall_impl; [exact Hfar|]. simpl. intros; lia.
  - rewrite filter_cons_False by done. by apply IH.
Qed.

Lemma debounce_runs_within (from : Z) (calls : list Z) :
  Sorted Z.le calls → (runs_within from wait (debounce wait calls) ≤ 1)%nat.
Proof.
  intros Hsorted. apply spaced_runs_within. unfold debounce.
  apply executions_spaced; [|done].
  by apply Sorted_StronglySorted; [apply _|].
Qed.

End Debounce.

(** C6: whatever the (time-ordered) raw calls of a debounced handler are,
    the body of [handleScroll] and the body of [handleResize], both debounced
    with 500 ms, run at most once in any window of 500 ms. *)
Theorem debounced_handlers_once_per_window (from : Z) (scrolls resizes : list Z) :
  Sorted Z.le scrolls →
  Sorted Z.le resizes →
  IntroRoute.handleScroll_wait = 500
  ∧ IntroRoute.handleResize_wait = 500
  ∧ (Utils.runs_within from 500
       (Utils.debounce IntroRoute.handleScroll_wait scrolls) ≤ 1)%nat
  ∧ (Utils.runs_within from 500
       (Utils.debounce IntroRoute.handleResize_wait resizes) ≤ 1)%nat.
Proof.
  intros Hscrolls Hresizes. unfold IntroRoute.handleScroll_wait, IntroRoute.handleResize_wait.
  repeat split; apply debounce_runs_within; (lia || done).
Qed.

(** C6 on a burst of five scroll events followed by a late one, and two
    resize events: the scroll body runs at 720 and at 1450 only. *)
Lemma debounced_handlers_once_per_window_witness :
  Sorted Z.le Sample.scroll_burst
  ∧ Sorted Z.le Sample.resize_pair
  ∧ Utils.debounce IntroRoute.handleScroll_wait Sample.scroll_burst = [720; 1450]
  ∧ (Utils.runs_within 700 500
       (Utils.debounce IntroRoute.handleScroll_wait Sample.scroll_burst) ≤ 1)%nat
  ∧ (Utils.runs_within 700 500
       (Utils.debounce IntroRoute.handleResize_wait Sample.resize_pair) ≤ 1)%nat.
Proof.
  assert (Sorted Z.le Sample.scroll_burst) as Hscrolls
    by (unfold Sample.scroll_burst; repeat constructor; lia).
  assert (Sorted Z.le Sample.resize_pair) as Hresizes
    by (unfold Sample.resize_pair; repeat constructor; lia).
  destruct (debounced_handlers_once_per_window 700 _ _ Hscrolls Hresizes)
    as (_ & _ & Hscroll & Hresize).
  exact (conj Hscrolls (conj Hresizes (conj eq_refl (conj Hscroll Hresize)))).
Defined.

(** ** AvailableWidth *)

Section Width.
Import AvailableWidth.
Context {Node : Type}.
Implicit Types (p : Props Node) (c : Instance Node) (el : HTMLElement).

Lemma render_undefined p (st : State) :
  width st = None → render p st = Div Nothing.
Proof. intros Hwidth. unfold render. by rewrite Hwidth. Qed.

Lemma render_number p (st : State) (w : Z) :
  width st = Some w → render p st = Div (Content (children p w)).
Proof. intros Hwidth. unfold render. by rewrite Hwidth. Qed.

Lemma setState_width_state (w : Z) c : state (setState_width w c) = mkState (Some w).
Proof. done. Qed.

Lemma setState_width_rendered (w : Z) c :
  width (state c) ≠ Some w →
  rendered (setState_width w c) = Div (Content (children (props c) w)) :: rendered c.
Proof.
  intros Hchanged. unfold setState_width. simpl.
  rewrite decide_False; [done|]. intros Heq. apply Hchanged. by rewrite <- Heq.
Qed.

Lemma setState_width_attached (w : Z) p el c :
  attached p el c → attached p el (setState_width w c).
Proof. done. Qed.

Lemma componentDidMount_attached p el : attached p el (componentDidMount (create p el)).
Proof. done. Qed.

Lemma notify_attached (entry : ResizeObserverEntry) (more : list ResizeObserverEntry)
    p el c :
  attached p el c → target entry = node el →
  notify (entry :: more) c = setState_width (rect_width (contentRect entry)) c.
Proof.
  intros (_ & _ & Hobserver) Htarget. unfold notify, deliverable. rewrite Hobserver.
  rewrite filter_cons_True; [done|]. simpl. rewrite Htarget. by left.
Qed.

Lemma notify_cases (entries : list ResizeObserverEntry) c :
  notify entries c = c
  ∨ ∃ entry, entry ∈ entries
             ∧ notify entries c = setState_width (rect_width (contentRect entry)) c.
Proof.
  unfold notify. destruct (observer c) as [o|]; [|by left].
  destruct (deliverable o entries) as [|entry es] eqn:Hdeliver; [by left|].
  right. exists entry. split; [|done].
  assert (entry ∈ deliverable o entries) as Hin by (rewrite Hdeliver; by left).
  unfold deliverable in Hin. by apply list_elem_of_filter in Hin as [_ ?].
Qed.

Lemma notify_keeps_attached (entries : list ResizeObserverEntry) p el c :
  attached p el c → attached p el (notify entries c).
Proof.
  intros Hc. destruct (notify_cases entries c) as [-> | (entry & _ & ->)]; [done|].
  by apply setState_width_attached.
Qed.

Lemma reports_keep_attached (reports : list (list ResizeObserverEntry)) p el c :
  attached p el c → attached p el (run c (Resized <$> reports)).
Proof.
  revert c. induction reports as [|entries reports IH]; intros c Hc; [done|].
  simpl. apply IH. by apply notify_keeps_attached.
Qed.

(** C5: [render] produces no child content whenever [state.width] is
    undefined, as in the first render; when the width is a number it renders
    exactly [children(width)]; and after mounting, every report of the resize
    observer for the element sets [state.width] to the reported width, a
    changed width running [render] once more, with [children] of the new
    width as content. *)
Theorem render_follows_width p el
    (reports : list (list ResizeObserverEntry))
    (entry : ResizeObserverEntry) (more : list ResizeObserverEntry) :
  let c := run (create p el) (Mount :: (Resized <$> reports)) in
  let c' := step c (Resized (entry :: more)) in
  let w := rect_width (contentRect entry) in
  (∀ st, width st = None → render p st = Div Nothing)
  ∧ (∀ st w, width st = Some w → render p st = Div (Content (children p w)))
  ∧ rendered (create p el) = [Div Nothing]
  ∧ (target entry = node el →
     width (state c') = Some w
     ∧ (width (state c) ≠ Some w →
        rendered c' = Div (Content (children p w)) :: rendered c)).
Proof.
  intros c c' w.
  split; [apply render_undefined|]. split; [apply render_number|]. split; [done|].
  intros Htarget.
  assert (attached p el c) as Hc.
  { unfold c. simpl. apply reports_keep_attached, componentDidMount_attached. }
  unfold c'. simpl. rewrite (notify_attached entry more p el c Hc Htarget).
  split; [done|]. intros Hchanged.
  rewrite setState_width_rendered by done.
  destruct Hc as (-> & _). done.
Qed.

(** *** The width, once measured *)

Lemma step_keeps_width c (ev : event) :
  is_Some (width (state c)) → is_Some (width (state (step c ev))).
Proof.
  intros Hc. destruct ev; simpl.
  - by eexists.
  - destruct (notify_cases entries c) as [-> | (entry & _ & ->)]; [done | by eexists].
  - unfold componentWillUnmount. by destruct (observer c).
Qed.

Lemma run_keeps_width (evs : list event) c :
  is_Some (width (state c)) → is_Some (width (state (run c evs))).
Proof.
  revert c. induction evs as [|ev evs IH]; intros c Hc; [done|].
  simpl. apply IH. by apply step_keeps_width.
Qed.

(** C8: [state.width] is undefined only before the first measurement. It
    starts undefined; [componentDidMount] sets it to the measured width of
    the element; the observer's callback sets it to the width of the entry
    it is given; no lifecycle step takes a width that is set back to
    undefined, so it is a number after mounting and any later events. *)
Theorem width_undefined_only_before_mount p el (evs : list event) :
  width (state (create p el)) = None
  ∧ width (state (componentDidMount (create p el)))
    = Some (rect_width (getBoundingClientRect el))
  ∧ (∀ c entry more,
       state <$> observer_callback (entry :: more) c
       = Some (mkState (Some (rect_width (contentRect entry)))))
  ∧ (∀ c ev, is_Some (width (state c)) → is_Some (width (state (step c ev))))
  ∧ is_Some (width (state (run (create p el) (Mount :: evs)))).
Proof.
  split; [done|]. split; [done|]. split; [done|].
  split; [apply step_keeps_width|].
  simpl. apply run_keeps_width. by eexists.
Qed.

End Width.

(** ** Unmounting *)

Lemma filter_everything {A : Type} (P : A → Prop) `{!∀ x, Decision (P x)} (l : list A) :
  Forall P l → filter P l = l.
Proof.
  induction 1 as [|x l Hx _ IH]; [done|].
  rewrite filter_cons_True by done. by rewrite IH.
Qed.

Section Unmount.
Import IntroRoute.
Variable INTRO_STEPS : list value.
Variable self : nat.

Lemma not_owned_differs (r : registration) (type : string) :
  ¬ owned_by self r →
  r ≠ (type, HandleResize self) ∧ r ≠ (type, HandleScroll self).
Proof.
  intros Hforeign. split; intros ->; apply Hforeign; [by left | by right].
Qed.

Lemma componentDidMount_listeners (window : Window) :
  Forall (λ r, ¬ owned_by self r) (listeners window) →
  listeners (componentDidMount self window)
  = listeners window ++ [("resize", HandleResize self); ("scroll", HandleScroll self)].
Proof.
  intros Hforeign. rewrite Forall_forall in Hforeign.
  unfold componentDidMount, addEventListener. simpl.
  rewrite (decide_False (P := _ ∈ listeners window)).
  - rewrite decide_False; [by rewrite <- app_assoc|].
    rewrite elem_of_app, list_elem_of_singleton. intros [Hin|[=]].
    apply (Hforeign _ Hin). by right.
  - intros Hin. apply (Hforeign _ Hin). by left.
Qed.

Lemma componentWillUnmount_listeners (window : Window) :
  Forall (λ r, ¬ owned_by self r) (listeners window) →
  listeners (componentWillUnmount self (componentDidMount self window))
  = listeners window.
Proof.
  intros Hforeign. unfold componentWillUnmount, removeEventListener.
  rewrite componentDidMount_listeners by done. simpl.
  rewrite !filter_app.
  rewrite !(filter_everything _ (listeners window)).
  - rewrite filter_cons_False by (intros Hne; by apply Hne).
    rewrite filter_cons_True by done. simpl.
    rewrite filter_cons_False by (intros Hne; by apply Hne).
    by rewrite app_nil_r.
  - eapply Forall_impl; [exact Hforeign|]. intros r Hr. by apply not_owned_differs.
  - eapply Forall_impl; [exact Hforeign|]. intros r Hr. by apply not_owned_differs.
Qed.

Lemma call_foreign_listeners (window : Window) (sectionRefs : list HTMLElement)
    (fs : list listener) (st : State) :
  Forall (λ f, f ≠ HandleResize self ∧ f ≠ HandleScroll self) fs →
  foldl (call_listener INTRO_STEPS self window sectionRefs) st fs = st.
Proof.
  induction 1 as [|f fs [Hresize Hscroll] _ IH]; [done|].
  simpl. rewrite <- IH at 2. f_equal.
  destruct f as [i|i|k]; simpl; [| |done].
  - rewrite decide_False; [done | congruence].
  - rewrite decide_False; [done | congruence].
Qed.

Lemma listeners_for_foreign (type : string) (ls : list registration) :
  Forall (λ r, ¬ owned_by self r) ls →
  Forall (λ f, f ≠ HandleResize self ∧ f ≠ HandleScroll self) (listeners_for type ls).
Proof.
  intros Hforeign. unfold listeners_for. apply Forall_fmap.
  apply Forall_forall. intros r [_ Hin]%list_elem_of_filter.
  rewrite Forall_forall in Hforeign. specialize (Hforeign r Hin).
  unfold owned_by in Hforeign. simpl. tauto.
Qed.

Lemma dispatchEvent_foreign (window : Window) (sectionRefs : list HTMLElement)
    (type : string) (st : State) :
  Forall (λ r, ¬ owned_by self r) (listeners window) →
  dispatchEvent INTRO_STEPS self window sectionRefs type st = st.
Proof.
  intros Hforeign. unfold dispatchEvent.
  by apply call_foreign_listeners, listeners_for_foreign.
Qed.

Lemma dispatchEvent_mounted (window : Window) (sectionRefs : list HTMLElement) (st : State) :
  Forall (λ r, ¬ owned_by self r) (listeners window) →
  let mounted := componentDidMount self window in
  dispatchEvent INTRO_STEPS self mounted sectionRefs "scroll" st
  = handleScroll INTRO_STEPS sectionRefs st
  ∧ dispatchEvent INTRO_STEPS self mounted sectionRefs "resize" st
    = handleResize mounted st.
Proof.
  intros Hforeign mounted. unfold dispatchEvent, listeners_for, mounted.
  rewrite componentDidMount_listeners by done.
  rewrite !filter_app, !fmap_app, !foldl_app.
  fold (listeners_for "scroll" (listeners window)).
  fold (listeners_for "resize" (listeners window)).
  rewrite (call_foreign_listeners _ _ (listeners_for "scroll" (listeners window)))
    by by apply listeners_for_foreign.
  rewrite (call_foreign_listeners _ _ (listeners_for "resize" (listeners window)))
    by by apply listeners_for_foreign.
  split.
  - rewrite filter_cons_False by done. rewrite filter_cons_True by done. simpl.
    by rewrite decide_True.
  - rewrite filter_cons_True by done. rewrite filter_cons_False by done. simpl.
    by rewrite decide_True.
Qed.

End Unmount.

Section UnmountWidth.
Import AvailableWidth.
Context {Node : Type}.
Implicit Types (p : Props Node) (c : Instance Node) (el : HTMLElement).

Lemma notify_detached (entries : list ResizeObserverEntry) c :
  detached c → notify entries c = c.
Proof.
  intros Hc. unfold notify, deliverable. rewrite Hc. simpl.
  rewrite filter_nothing; [done|].
  apply Forall_forall. intros entry _. apply not_elem_of_nil.
Qed.

Lemma reports_detached (reports : list (list ResizeObserverEntry)) c :
  detached c → run c (Resized <$> reports) = c.
Proof.
  intros Hc. induction reports as [|entries reports IH]; [done|].
  simpl. by rewrite notify_detached.
Qed.

Lemma componentWillUnmount_attached p el c :
  attached p el c →
  ∃ c', componentWillUnmount c = Some c' ∧ detached c'
        ∧ state c' = state c ∧ rendered c' = rendered c.
Proof.
  intros (_ & _ & Hobserver). unfold componentWillUnmount. rewrite Hobserver.
  by eexists.
Qed.

End UnmountWidth.

(** C7: after unmounting, observers and listeners are detached and the
    state is no longer updated. [IntroRoute] registers its resize and scroll
    handlers on mount, an event of the window then reaching them;
    [componentWillUnmount] removes exactly these two, leaving the window's
    listeners as they were before the mount, and no event dispatched
    afterwards changes the state. [AvailableWidth.componentWillUnmount]
    disconnects the observer, and no later report of the browser changes the
    instance. *)
Theorem unmount_detaches {Node : Type}
    (INTRO_STEPS : list value) (self : nat) (window : IntroRoute.Window)
    (sectionRefs : list HTMLElement) (st : IntroRoute.State)
    (p : AvailableWidth.Props Node) (el : HTMLElement)
    (reports : list (list ResizeObserverEntry)) :
  Forall (λ r, ¬ IntroRoute.owned_by self r) (IntroRoute.listeners window) →
  let mounted := IntroRoute.componentDidMount self window in
  let unmounted := IntroRoute.componentWillUnmount self mounted in
  let c := AvailableWidth.run (AvailableWidth.create p el)
             (AvailableWidth.Mount :: (AvailableWidth.Resized <$> reports)) in
  (IntroRoute.listeners mounted
   = IntroRoute.listeners window
     ++ [("resize"%string, HandleResize self); ("scroll"%string, HandleScroll self)]
   ∧ IntroRoute.dispatchEvent INTRO_STEPS self mounted sectionRefs "scroll" st
     = IntroRoute.handleScroll INTRO_STEPS sectionRefs st
   ∧ IntroRoute.dispatchEvent INTRO_STEPS self mounted sectionRefs "resize" st
     = IntroRoute.handleResize mounted st
   ∧ IntroRoute.listeners unmounted = IntroRoute.listeners window
   ∧ ∀ type refs st',
       IntroRoute.dispatchEvent INTRO_STEPS self unmounted refs type st' = st')
  ∧ ∃ c', AvailableWidth.componentWillUnmount c = Some c'
          ∧ detached c'
          ∧ AvailableWidth.state c' = AvailableWidth.state c
          ∧ ∀ later, AvailableWidth.run c' (AvailableWidth.Resized <$> later) = c'.
Proof.
  intros Hforeign mounted unmounted c.
  pose proof (componentWillUnmount_listeners self window Hforeign) as Hback.
  split.
  - split; [by apply componentDidMount_listeners|].
    destruct (dispatchEvent_mounted INTRO_STEPS self window sectionRefs st Hforeign)
      as [Hscroll Hresize].
    split; [done|]. split; [done|]. split; [done|].
    intros type refs st'. apply dispatchEvent_foreign.
    fold mounted unmounted in Hback. by rewrite Hback.
  - assert (attached p el c) as Hc.
    { unfold c. simpl. apply reports_keep_attached, componentDidMount_attached. }
    destruct (componentWillUnmount_attached p el c Hc) as (c' & Hunmount & Hc' & Hstate & _).
    exists c'. split; [done|]. split; [done|]. split; [done|].
    intros later. by apply reports_detached.
Qed.

(** C7 on a window with two listeners of other code, and on a mounted
    [AvailableWidth] whose container is reported narrower after the
    unmount. *)
Lemma unmount_detaches_witness :
  Forall (λ r, ¬ IntroRoute.owned_by 1 r) (IntroRoute.listeners Sample.busy_window)
  ∧ IntroRoute.listeners
      (IntroRoute.componentWillUnmount 1
         (IntroRoute.componentDidMount 1 Sample.busy_window))
    = IntroRoute.listeners Sample.busy_window
  ∧ IntroRoute.dispatchEvent Sample.named_steps 1
      (IntroRoute.componentWillUnmount 1
         (IntroRoute.componentDidMount 1 Sample.busy_window))
      Sample.sections_second "scroll" (Sample.at_step (Str "title"))
    = Sample.at_step (Str "title")
  ∧ ∃ c', AvailableWidth.componentWillUnmount
            (AvailableWidth.run
               (AvailableWidth.create Sample.width_props Sample.container)
               [AvailableWidth.Mount]) = Some c'
          ∧ AvailableWidth.run c' [AvailableWidth.Resized [Sample.narrower]] = c'.
Proof.
  assert (Forall (λ r, ¬ IntroRoute.owned_by 1 r)
            (IntroRoute.listeners Sample.busy_window)) as Hforeign.
  { unfold Sample.busy_window. simpl.
    repeat constructor; intros [Hown|Hown]; discriminate Hown. }
  destruct (unmount_detaches Sample.named_steps 1 Sample.busy_window
              Sample.sections_second (Sample.at_step (Str "title"))
              Sample.width_props Sample.container [] Hforeign)
    as [(_ & _ & _ & Hback & Hquiet) (c' & Hunmount & _ & _ & Hlater)].
  refine (conj Hforeign (conj Hback (conj (Hquiet _ _ _) _))).
  exists c'. exact (conj Hunmount (Hlater [[Sample.narrower]])).
Defined.

(** C5 on the sample component: nothing is rendered at first, the measured
    600 pixels after the mount, and 480 once the observer reports them. *)
Lemma render_follows_width_witness :
  AvailableWidth.rendered (AvailableWidth.create Sample.width_props Sample.container)
  = [AvailableWidth.Div AvailableWidth.Nothing]
  ∧ target Sample.narrower = node Sample.container
  ∧ AvailableWidth.rendered
      (AvailableWidth.run (AvailableWidth.create Sample.width_props Sample.container)
         [AvailableWidth.Mount; AvailableWidth.Resized [Sample.narrower]])
    = [AvailableWidth.Div (AvailableWidth.Content 480);
       AvailableWidth.Div (AvailableWidth.Content 600);
       AvailableWidth.Div AvailableWidth.Nothing].
Proof.
  destruct (render_follows_width Sample.width_props Sample.container []
              Sample.narrower [])
    as (_ & _ & Hfirst & Hreport).
  destruct (Hreport eq_refl) as [_ Hrendered].
  refine (conj Hfirst (conj eq_refl _)).
  apply Hrendered. simpl. discriminate.
Defined.

(** C8 on the sample component: the width is set by the mount and stays set
    through a report and the unmount. *)
Lemma width_undefined_only_before_mount_witness :
  AvailableWidth.width
    (AvailableWidth.state
       (AvailableWidth.create Sample.width_props Sample.container)) = None
  ∧ is_Some
      (AvailableWidth.width
         (AvailableWidth.state
            (AvailableWidth.run
               (AvailableWidth.create Sample.width_props Sample.container)
               [AvailableWidth.Mount; AvailableWidth.Resized [Sample.narrower];
                AvailableWidth.Unmount; AvailableWidth.Resized []]))).
Proof.
  destruct (width_undefined_only_before_mount Sample.width_props Sample.container
              [AvailableWidth.Resized [Sample.narrower]; AvailableWidth.Unmount;
               AvailableWidth.Resized []])
    as (Hstart & _ & _ & _ & Hset).
  exact (conj Hstart Hset).
Defined.

(** ** IntroRoute: how the handlers compose *)

Section Tracker.
Import IntroRoute.
Variable INTRO_STEPS : list value.
Variable DEFAULT_WAVEFORM_SHAPE : WaveformShape.

(** X1: [currentStep] starts as [INTRO_STEPS[0]] and, after any sequence of
    events, is an element of [INTRO_STEPS] or [undefined]; an identifier
    given to [handleIntersect] that is not in the table never becomes
    current. *)
Theorem currentStep_from_the_table (window : Window) (evs : list event) :
  currentStep (initialState INTRO_STEPS DEFAULT_WAVEFORM_SHAPE window)
  = default Undefined (head INTRO_STEPS)
  ∧ step_or_undefined INTRO_STEPS
      (currentStep (run INTRO_STEPS DEFAULT_WAVEFORM_SHAPE window evs)).
Proof.
  split; [|apply run_step_or_undefined].
  simpl. change 0 with (Z.of_nat 0). rewrite get_nat. by destruct INTRO_STEPS.
Qed.

(** X2: the body of [handleScroll] is idempotent: run twice on the same
    sections, it leaves the state the first run produced. *)
Theorem handleScroll_idempotent (sectionRefs : list HTMLElement) (st : State) :
  handleScroll INTRO_STEPS sectionRefs (handleScroll INTRO_STEPS sectionRefs st)
  = handleScroll INTRO_STEPS sectionRefs st.
Proof.
  unfold handleScroll at 2.
  destruct (handleScroll_guard _ st) eqn:Hguard.
  - unfold handleScroll. rewrite Hguard. clear Hguard.
    by destruct (handleScroll_guard _ _).
  - unfold handleScroll. by rewrite Hguard.
Qed.

(** X3: [handleScroll] and [handleIntersect] write [currentStep] only: the
    window height, amplitude, frequency, shape and audibility flag are
    those of the state before. *)
Theorem step_handlers_write_currentStep_only
    (sectionRefs : list HTMLElement) (id : value)
    (entry : IntersectionObserverEntry) (st : State) :
  handleScroll INTRO_STEPS sectionRefs st
  = mkState (currentStep (handleScroll INTRO_STEPS sectionRefs st))
            (windowHeight st) (amplitude st) (frequency st) (shape st)
            (userEnabledSound st)
  ∧ handleIntersect INTRO_STEPS id entry st
    = mkState (currentStep (handleIntersect INTRO_STEPS id entry st))
              (windowHeight st) (amplitude st) (frequency st) (shape st)
              (userEnabledSound st).
Proof.
  split; [|done].
  unfold handleScroll. destruct (handleScroll_guard _ _); [done|]. by destruct st.
Qed.

Lemma step_keeps_shape (st : State) (ev : event) :
  shape (step INTRO_STEPS st ev) = shape st.
Proof.
  destruct ev; simpl; try done.
  unfold handleScroll. by destruct (handleScroll_guard _ _).
Qed.

(** X4: no event changes [shape]: after any sequence of events it is
    [DEFAULT_WAVEFORM_SHAPE]. *)
Theorem shape_never_changes (window : Window) (evs : list event) :
  shape (run INTRO_STEPS DEFAULT_WAVEFORM_SHAPE window evs) = DEFAULT_WAVEFORM_SHAPE.
Proof.
  unfold run.
  assert (∀ st, shape (foldl (step INTRO_STEPS) st evs) = shape st) as Hfold.
  { induction evs as [|ev evs' IH]; intros st; simpl; [done|].
    by rewrite IH, step_keeps_shape. }
  by rewrite Hfold.
Qed.

(** *** Scrolling forward, section by section *)

Lemma intersect_in_turn
    (entry : IntersectionObserverEntry) (leaving before after : list value) (st : State) :
  INTRO_STEPS = before ++ leaving ++ after →
  NoDup INTRO_STEPS →
  currentStep st = get INTRO_STEPS (Z.of_nat (length before)) →
  currentStep (foldl (step INTRO_STEPS) st ((λ id, Intersect id entry) <$> leaving))
  = get INTRO_STEPS (Z.of_nat (length before + length leaving)).
Proof.
  revert before st.
  induction leaving as [|id leaving IH]; intros before st Hsplit Hnodup Hst.
  - simpl. by rewrite Nat.add_0_r.
  - simpl in Hsplit. simpl. rewrite (IH (before ++ [id])).
    + f_equal. rewrite length_app. simpl. lia.
    + by rewrite <- app_assoc.
    + done.
    + assert (id ∉ before) as Hfresh.
      { intros Hin. rewrite Hsplit in Hnodup.
        apply NoDup_app in Hnodup as (_ & Hdisjoint & _).
        apply (Hdisjoint id Hin). by left. }
      assert (currentStep st = id) as Hcurrent.
      { by rewrite Hst, get_nat, Hsplit, list_lookup_middle. }
      unfold handleIntersect, intersect_direction. simpl.
      rewrite Hcurrent.
      replace (strict_eq id id) with true by (symmetry; by apply strict_eq_true).
      rewrite Hsplit at 2. simpl.
      rewrite indexOf_first_occurrence by done.
      f_equal. rewrite length_app. simpl. lia.
Qed.

Lemma intersect_first_steps
    (entry : IntersectionObserverEntry) (window : Window) (k : nat) :
  NoDup INTRO_STEPS → (k ≤ length INTRO_STEPS)%nat →
  currentStep
    (run INTRO_STEPS DEFAULT_WAVEFORM_SHAPE window
       ((λ id, Intersect id entry) <$> take k INTRO_STEPS))
  = get INTRO_STEPS (Z.of_nat k).
Proof.
  intros Hnodup Hk. unfold run.
  rewrite (intersect_in_turn entry (take k INTRO_STEPS) [] (drop k INTRO_STEPS)).
  - simpl. by rewrite length_take, Nat.min_l.
  - simpl. by rewrite take_drop.
  - done.
  - done.
Qed.

(** X5: scrolling forward: with pairwise different steps, after the first
    [k] sections have reported their intersection in order, the current step
    is [INTRO_STEPS[k]]; it is an element of the table as long as
    [k] is less than its length. *)
Theorem forward_scroll_advances
    (entry : IntersectionObserverEntry) (window : Window) (k : nat) :
  NoDup INTRO_STEPS → (k ≤ length INTRO_STEPS)%nat →
  let st := run INTRO_STEPS DEFAULT_WAVEFORM_SHAPE window
              ((λ id, Intersect id entry) <$> take k INTRO_STEPS) in
  currentStep st = get INTRO_STEPS (Z.of_nat k)
  ∧ ((k < length INTRO_STEPS)%nat → INTRO_STEPS !! k = Some (currentStep st)).
Proof.
  intros Hnodup Hk st.
  assert (currentStep st = get INTRO_STEPS (Z.of_nat k)) as Hst
    by by apply intersect_first_steps.
  split; [done|]. intros Hlt. rewrite Hst, get_nat.
  by destruct (lookup_lt_is_Some_2 INTRO_STEPS k Hlt) as [v ->].
Qed.

(** X6: the scroll fallback agrees with the intersections it stands in for:
    with pairwise different steps none of which is a number, and one section
    per step, a scroll that finds section [k] first in view sets, whatever
    happened before, the current step that [k] sections leaving in order
    produce. *)
Theorem scroll_fallback_agrees_with_intersections
    (entry : IntersectionObserverEntry) (window : Window) (evs : list event)
    (sectionRefs : list HTMLElement) (k : nat) :
  NoDup INTRO_STEPS →
  Forall (λ s, ¬ is_number s) INTRO_STEPS →
  length sectionRefs = length INTRO_STEPS →
  first_visible sectionRefs k →
  currentStep (handleScroll INTRO_STEPS sectionRefs
                 (run INTRO_STEPS DEFAULT_WAVEFORM_SHAPE window evs))
  = currentStep (run INTRO_STEPS DEFAULT_WAVEFORM_SHAPE window
                   ((λ id, Intersect id entry) <$> take k INTRO_STEPS)).
Proof.
  intros Hnodup Hsteps Hlen Hfirst.
  assert (k < length INTRO_STEPS)%nat as Hk.
  { destruct Hfirst as [(section & Hlook & _) _].
    apply lookup_lt_Some in Hlook. lia. }
  rewrite intersect_first_steps by (done || lia).
  rewrite handleScroll_applied.
  - simpl. by rewrite (findIndex_first_visible _ _ Hfirst).
  - apply handleScroll_guard_not_number.
    eapply step_or_undefined_not_number; [done | apply run_step_or_undefined].
Qed.

(** X7: leaving and entering again: when [id] is the current step and the
    element after it in [INTRO_STEPS] is a different one, a first
    intersection of [id] makes that element current and a second one makes
    [id] current again. *)
Theorem leave_and_reenter (id next : value) (entry : IntersectionObserverEntry)
    (st : State) :
  follows INTRO_STEPS id next → next ≠ id → currentStep st = id →
  currentStep (handleIntersect INTRO_STEPS id entry st) = next
  ∧ currentStep (handleIntersect INTRO_STEPS id entry
                   (handleIntersect INTRO_STEPS id entry st)) = id.
Proof.
  intros (before & after & Hsplit & Hfresh) Hnext Hcurrent.
  assert (currentStep (handleIntersect INTRO_STEPS id entry st) = next) as Hleft.
  { unfold handleIntersect, intersect_direction. simpl. rewrite Hcurrent.
    replace (strict_eq id id) with true by (symmetry; by apply strict_eq_true).
    by rewrite Hsplit, get_after_first_occurrence. }
  split; [done|].
  unfold handleIntersect at 1. unfold intersect_direction. rewrite Hleft.
  replace (strict_eq id next) with false
    by (symmetry; apply strict_eq_false; congruence).
  simpl. apply get_indexOf. rewrite Hsplit.
  apply elem_of_app. right. by left.
Qed.

(** X8: an intersection reported with an identifier that is not in
    [INTRO_STEPS] makes the current step [undefined], unless the identifier
    equals the current step, when the first step becomes current. *)
Theorem handleIntersect_unknown_id (id : value) (entry : IntersectionObserverEntry)
    (st : State) :
  id ∉ INTRO_STEPS →
  currentStep (handleIntersect INTRO_STEPS id entry st)
  = if decide (id = currentStep st) then get INTRO_STEPS 0 else Undefined.
Proof.
  intros Hnotin.
  assert (indexOf INTRO_STEPS id = -1) as Hindex.
  { apply findIndex_none. apply Forall_forall. intros x Hx.
    apply strict_eq_false. by intros ->. }
  unfold handleIntersect, intersect_direction. simpl. rewrite Hindex.
  destruct (decide (id = currentStep st)) as [Heq|Hne].
  - by replace (strict_eq id (currentStep st)) with true
      by (symmetry; by apply strict_eq_true).
  - by replace (strict_eq id (currentStep st)) with false
      by (symmetry; by apply strict_eq_false).
Qed.

(** X9: events that do not write the same field commute: a setter with a
    setter of another field, and any setter with a scroll or intersection
    event, give the same state in either order. *)
Theorem independent_events_commute (a b : event) (st : State) :
  independent a b →
  step INTRO_STEPS (step INTRO_STEPS st a) b
  = step INTRO_STEPS (step INTRO_STEPS st b) a.
Proof.
  intros Hind.
  destruct a, b; simpl in Hind; try done; simpl;
    unfold handleScroll, handleScroll_guard; simpl;
    by destruct (strict_neq _ _).
Qed.

End Tracker.

(** ** IntroRoute: what is rendered *)

Lemma at_most_one_filtered {A B : Type} (f : A → B) (c : B)
    (P : A → Prop) `{!∀ x, Decision (P x)} (l : list A) :
  NoDup (f <$> l) → (∀ x, x ∈ l → P x → f x = c) → (length (filter P l) ≤ 1)%nat.
Proof.
  intros Hnodup Hc. induction l as [|x l IH]; [simpl; lia|].
  rewrite fmap_cons in Hnodup. apply NoDup_cons in Hnodup as [Hfresh Hnodup].
  destruct (decide (P x)) as [Hx|Hx].
  - rewrite filter_cons_True by done.
    rewrite (filter_nothing P l); [simpl; lia|].
    apply Forall_forall. intros y Hy HPy. apply Hfresh.
    rewrite (Hc x (list_elem_of_here x l) Hx).
    rewrite <- (Hc y (list_elem_of_further y x l Hy) HPy).
    by apply list_elem_of_fmap_2.
  - rewrite filter_cons_False by done. apply IH; [done|].
    intros y Hy. apply Hc. by right.
Qed.

Section Rendered.
Import IntroRoute.
Context {Node : Type}.
Variable INTRO_STEPS : list value.
Variable steps : gmap string StepData.
Variable stepsArray : list (Section Node).

Lemma render_section_Some (st : State) (section : Section Node)
    (sp : IntroRouteSectionProps Node) :
  render_section st section = Some sp →
  ∃ getMargin, section_getMargin section = Some getMargin
    ∧ sp = mkSectionProps (section_id section) (section_id section)
                          (getMargin (windowHeight st))
                          (strict_eq (currentStep st) (section_id section))
                          (section_children section).
Proof.
  unfold render_section. destruct (section_getMargin section) as [g|]; [|done].
  simpl. intros [= <-]. by exists g.
Qed.

Lemma render_Some (window : Window) (st : State) (view : View Node) :
  render steps stepsArray window st = Some view →
  ∃ stepData,
    steps !! to_property_key (currentStep st) = Some stepData
    ∧ Forall2 (λ section sp, render_section st section = Some sp)
              stepsArray (sections view)
    ∧ soundButtonToggle view
      = mkToggle (makeSoundToggleable stepData) (userEnabledSound st)
    ∧ oscillator view
      = mkOscillator (shape st) (amplitude st) (frequency st * 100 + 100)
                     (userEnabledSound st && makeSoundToggleable stepData)
    ∧ player_isPlaying (waveformPlayer view) = isPlaying stepData
    ∧ player_amplitude (waveformPlayer view)
      = match amplitudeOverride stepData with
        | Num override => override
        | _ => amplitude st
        end
    ∧ player_frequency (waveformPlayer view)
      = match frequencyOverride stepData with
        | Num override => override
        | _ => frequency st
        end
    ∧ bottomTextSpacer_height view = innerHeight window.
Proof.
  unfold render.
  destruct (steps !! to_property_key (currentStep st)) as [stepData|]; [|done].
  simpl. destruct (mapM (render_section st) stepsArray) as [secs|] eqn:Hsecs; [|done].
  simpl. intros [= <-]. exists stepData. simpl.
  split; [done|]. split; [by apply mapM_Some_1|]. done.
Qed.



(** X11: once [currentStep] is [undefined] the component can no longer
    render: when [steps] has no entry under "undefined", a scroll that
    finds every section above the viewport, from a current step that is not
    a number, leaves a state on which [render] throws. *)
Theorem render_throws_after_scrolling_past
    (window : Window) (sectionRefs : list HTMLElement) (st : State) :
  steps !! "undefined"%string = None →
  all_above sectionRefs →
  ¬ is_number (currentStep st) →
  render steps stepsArray window (handleScroll INTRO_STEPS sectionRefs st) = None.
Proof.
  intros Hmissing Habove Hnum.
  rewrite handleScroll_no_section by (by apply findIndex_all_above || done).
  unfold render. simpl. by rewrite Hmissing.
Qed.

(** X12: the oscillator is audible exactly when the user enabled sound and
    the current step makes sound toggleable, that is exactly when the sound
    button is shown and shows sound as on; after
    [handleToggleAudibility(false)] it is never audible. *)
Theorem oscillator_audible_with_visible_toggle
    (window : Window) (st : State) (view : View Node) :
  render steps stepsArray window st = Some view →
  oscillator_isAudible (oscillator view)
  = toggle_isAudible (soundButtonToggle view)
    && toggle_isVisible (soundButtonToggle view)
  ∧ toggle_isAudible (soundButtonToggle view) = userEnabledSound st
  ∧ ∀ view', render steps stepsArray window (handleToggleAudibility false st)
             = Some view' →
             oscillator_isAudible (oscillator view') = false.
Proof.
  intros (stepData & _ & _ & -> & -> & _)%render_Some. simpl.
  split; [done|]. split; [done|].
  intros view' (stepData' & _ & _ & _ & -> & _)%render_Some. done.
Qed.

Lemma rendered_ids (st : State) (secs : list (IntroRouteSectionProps Node)) :
  Forall2 (λ section sp, render_section st section = Some sp) stepsArray secs →
  props_id <$> secs = section_ids stepsArray
  ∧ Forall (λ sp, props_isSelected sp = strict_eq (currentStep st) (props_id sp)) secs.
Proof.
  unfold section_ids. induction 1 as [|section sp arr secs Hsp _ [IHids IHsel]]; [done|].
  apply render_section_Some in Hsp as (g & _ & ->). rewrite !fmap_cons. simpl.
  split; [by f_equal | by constructor].
Qed.

(** X13: [render] gives one [IntroRouteSection] per element of
    [stepsArray], in order and with its identifier; a section is selected
    exactly when its identifier is the current step, so with pairwise
    different identifiers exactly one section is selected when the current
    step is one of them, and none when it is not (as for [undefined]). *)
Theorem one_section_selected (window : Window) (st : State) (view : View Node) :
  render steps stepsArray window st = Some view →
  NoDup (section_ids stepsArray) →
  props_id <$> sections view = section_ids stepsArray
  ∧ (∀ sp, sp ∈ selected view ↔ sp ∈ sections view ∧ props_id sp = currentStep st)
  ∧ (currentStep st ∈ section_ids stepsArray → length (selected view) = 1%nat)
  ∧ (currentStep st ∉ section_ids stepsArray → selected view = []).
Proof.
  intros (stepData & _ & Hsecs & _)%render_Some Hnodup.
  apply rendered_ids in Hsecs as [Hids Hsel]. rewrite Forall_forall in Hsel.
  assert (∀ sp, sp ∈ selected view ↔ sp ∈ sections view ∧ props_id sp = currentStep st)
    as Hselected.
  { intros sp. unfold selected. rewrite list_elem_of_filter. split.
    - intros [Hsp Hin]. split; [done|].
      rewrite (Hsel sp Hin) in Hsp. by apply strict_eq_true in Hsp.
    - intros [Hin Hid]. split; [|done].
      rewrite (Hsel sp Hin). by apply strict_eq_true. }
  split; [done|]. split; [done|]. split.
  - intros Hcurrent. rewrite <- Hids in Hcurrent, Hnodup.
    apply list_elem_of_fmap in Hcurrent as (sp & Hid & Hin).
    assert (sp ∈ selected view) as Hsp by (apply Hselected; by split).
    assert (length (selected view) ≤ 1)%nat as Hle.
    { unfold selected. apply (at_most_one_filtered props_id (currentStep st)); [done|].
      intros x Hxin Hx. apply (Hselected x). unfold selected.
      by apply list_elem_of_filter. }
    destruct (selected view) as [|? ?]; [by apply elem_of_nil in Hsp | simpl in *; lia].
  - intros Hcurrent. unfold selected. apply filter_nothing.
    apply Forall_forall. intros sp Hin Hsp. apply Hcurrent.
    rewrite <- Hids. rewrite (Hsel sp Hin) in Hsp. apply strict_eq_true in Hsp.
    rewrite Hsp. by apply list_elem_of_fmap_2.
Qed.

End Rendered.

Section RenderedNumbers.
Import IntroRoute.
Context {Node : Type}.
Variable steps : gmap string StepData.
Variable stepsArray : list (Section Node).


(** X15: the margins of the sections come from the height [handleResize]
    stored, the bottom spacer from the height of the window at the time of
    the render: rendering after [handleResize] ran with a window, every
    section's margin is its [getMargin] of that window's inner height. *)
Theorem margins_follow_handled_resize
    (resized current : Window) (st : State) (view : View Node) :
  render steps stepsArray current (handleResize resized st) = Some view →
  bottomTextSpacer_height view = innerHeight current
  ∧ Forall2 (λ section sp,
               ∃ getMargin, section_getMargin section = Some getMargin
                            ∧ props_margin sp = getMargin (innerHeight resized))
            stepsArray (sections view).
Proof.
  intros (stepData & _ & Hsecs & _ & _ & _ & _ & _ & Hspacer)%render_Some.
  split; [done|].
  eapply Forall2_impl; [exact Hsecs|]. simpl.
  intros section sp (g & Hg & ->)%render_section_Some. by exists g.
Qed.

End RenderedNumbers.

(** ** IntroRoute: mounting twice *)

Section MountTwice.
Import IntroRoute.
Variable self : nat.

Lemma addEventListener_registered (type : string) (f : listener)
    (ls : list registration) :
  (type, f) ∈ addEventListener type f ls.
Proof.
  unfold addEventListener. destruct (decide ((type, f) ∈ ls)); [done|].
  apply elem_of_app. right. by left.
Qed.

Lemma addEventListener_present (type : string) (f : listener)
    (ls : list registration) :
  (type, f) ∈ ls → addEventListener type f ls = ls.
Proof. intros Hin. unfold addEventListener. by rewrite decide_True. Qed.

Lemma addEventListener_keeps (type : string) (f : listener) (r : registration)
    (ls : list registration) :
  r ∈ ls → r ∈ addEventListener type f ls.
Proof.
  intros Hin. unfold addEventListener. destruct (decide ((type, f) ∈ ls)); [done|].
  apply elem_of_app. by left.
Qed.

(** X16: mounting registers each handler once, however often it runs:
    [componentDidMount] a second time changes nothing, and after
    [componentWillUnmount] neither handler is registered for its event,
    whatever the window's listeners were. *)
Theorem mount_registers_once (window : Window) :
  componentDidMount self (componentDidMount self window)
  = componentDidMount self window
  ∧ (("resize"%string, HandleResize self)
     ∉ listeners (componentWillUnmount self window))
  ∧ (("scroll"%string, HandleScroll self)
     ∉ listeners (componentWillUnmount self window)).
Proof.
  split.
  - unfold componentDidMount. simpl. f_equal.
    rewrite (addEventListener_present "resize").
    + rewrite (addEventListener_present "scroll"); [done|].
      apply addEventListener_registered.
    + apply addEventListener_keeps, addEventListener_registered.
  - unfold componentWillUnmount, removeEventListener. simpl.
    split; rewrite !list_elem_of_filter; intros Hin; tauto.
Qed.

End MountTwice.

(** ** AvailableWidth: the life of an instance *)

Section WidthLife.
Import AvailableWidth.
Context {Node : Type}.
Implicit Types (p : Props Node) (c : Instance Node) (el : HTMLElement).

Lemma setState_width_up_to_date (w : Z) p el c :
  up_to_date p el c → up_to_date p el (setState_width w c).
Proof.
  intros (Hp & Hel & Hview). unfold up_to_date, setState_width. simpl.
  split; [done|]. split; [done|].
  destruct (decide (mkState (Some w) = state c)) as [Heq|Hne].
  - by rewrite Heq.
  - by rewrite Hp.
Qed.

Lemma step_up_to_date (ev : event) p el c :
  up_to_date p el c → up_to_date p el (step c ev).
Proof.
  intros Hc. destruct ev; simpl.
  - unfold componentDidMount.
    by apply (setState_width_up_to_date
                (rect_width (getBoundingClientRect (elem c)))) in Hc.
  - destruct (notify_cases entries c) as [-> | (entry & _ & ->)]; [done|].
    by apply setState_width_up_to_date.
  - unfold componentWillUnmount. by destruct (observer c).
Qed.

Lemma step_render_count (ev : event) c :
  (length (rendered (step c ev)) ≤ S (length (rendered c)))%nat.
Proof.
  assert (∀ w, length (rendered (setState_width w c)) ≤ S (length (rendered c)))%nat
    as Hset.
  { intros w. unfold setState_width. simpl. destruct (decide _); simpl; lia. }
  destruct ev; simpl.
  - apply Hset.
  - destruct (notify_cases entries c) as [-> | (entry & _ & ->)]; [lia | apply Hset].
  - unfold componentWillUnmount. destruct (observer c); simpl; lia.
Qed.

(** X17: what is on screen reflects the state: after any sequence of
    lifecycle events the output of the latest [render] call is [render] of
    the current state, and every event adds at most one [render] call. *)
Theorem latest_render_reflects_state p el (evs : list event) :
  let c := run (create p el) evs in
  head (rendered c) = Some (render p (state c))
  ∧ (length (rendered c) ≤ 1 + length evs)%nat.
Proof.
  assert (∀ c, up_to_date p el c →
               up_to_date p el (run c evs)
               ∧ (length (rendered (run c evs)) ≤ length (rendered c) + length evs)%nat)
    as Hrun.
  { induction evs as [|ev evs' IH]; intros c Hc; simpl; [split; [done | lia]|].
    destruct (IH (step c ev) (step_up_to_date ev p el c Hc)) as [Hup Hlen].
    split; [done|]. pose proof (step_render_count ev c). lia. }
  simpl. destruct (Hrun (create p el)) as [(_ & _ & Hview) Hlen]; [done|].
  split; [done|]. simpl in Hlen. lia.
Qed.

(** *** Before the mount, and where the width comes from *)

Lemma step_before_mount (ev : event) c :
  observer c = None → ev ≠ Mount → step c ev = c.
Proof.
  intros Hobserver Hev. destruct ev; simpl; [done| |].
  - unfold notify. by rewrite Hobserver.
  - unfold componentWillUnmount. by rewrite Hobserver.
Qed.

Lemma run_measured el (evs done_evs : list event) c :
  elem c = el →
  (∀ w, width (state c) = Some w → measured el (done_evs ++ evs) w) →
  ∀ w, width (state (run c evs)) = Some w → measured el (done_evs ++ evs) w.
Proof.
  revert c done_evs. induction evs as [|ev evs' IH]; intros c done_evs Hel Hc; [done|].
  simpl. replace (done_evs ++ ev :: evs') with ((done_evs ++ [ev]) ++ evs')
    in * by (by rewrite <- app_assoc).
  apply IH.
  - destruct ev; simpl; [done | | ].
    + by destruct (notify_cases entries c) as [-> | (entry & _ & ->)].
    + unfold componentWillUnmount. by destruct (observer c).
  - destruct ev; simpl.
    + intros w [= <-]. left. by rewrite Hel.
    + destruct (notify_cases entries c) as [-> | (entry & Hin & ->)]; [done|].
      intros w [= <-]. right. exists entries, entry.
      split; [|done]. apply elem_of_app. left. apply elem_of_app. right. by left.
    + unfold componentWillUnmount. by destruct (observer c).
Qed.

(** X18: nothing happens to an instance before it is mounted: reports of
    the browser and an unmount that come before [componentDidMount] leave it
    as created, with no width and an empty [<div>]. *)
Theorem nothing_before_mount p el (evs : list event) :
  Forall (λ ev, ev ≠ Mount) evs →
  run (create p el) evs = create p el
  ∧ width (state (run (create p el) evs)) = None
  ∧ rendered (run (create p el) evs) = [Div Nothing].
Proof.
  intros Hevs.
  assert (run (create p el) evs = create p el) as ->; [|done].
  induction Hevs as [|ev evs' Hev _ IH]; [done|].
  simpl. by rewrite step_before_mount.
Qed.

(** X19: the width is always one the browser measured: after any sequence
    of lifecycle events, a width that is set is the width of the element's
    bounding rectangle read at the mount, or the content width of an entry
    of one of the reports. *)
Theorem width_was_measured p el (evs : list event) (w : Z) :
  width (state (run (create p el) evs)) = Some w → measured el evs w.
Proof.
  intros Hw. by apply (run_measured el evs [] (create p el)).
Qed.

(** X20: a report that brings no new width does not render again:
    delivering the same entries a second time leaves the instance as the
    first delivery left it. *)
Theorem repeated_report_is_idle (entries : list ResizeObserverEntry) c :
  notify entries (notify entries c) = notify entries c.
Proof.
  unfold notify at 2.
  destruct (observer c) as [o|] eqn:Hobserver.
  - destruct (deliverable o entries) as [|entry es] eqn:Hdeliver.
    + unfold notify. by rewrite Hobserver, Hdeliver.
    + simpl. unfold notify. simpl. rewrite Hobserver, Hdeliver. simpl.
      unfold setState_width. simpl. by rewrite decide_True.
  - unfold notify. by rewrite Hobserver.
Qed.

End WidthLife.

(** ** constants: the mobile user agents *)

Section Mobile.
Import Constants.

Lemma append_empty (b : string) : (EmptyString +:+ b = b)%string.
Proof. done. Qed.

Lemma append_String (x : Ascii.ascii) (a b : string) :
  (String x a +:+ b = String x (a +:+ b))%string.
Proof. done. Qed.

Lemma append_assoc (a b c : string) : ((a +:+ b) +:+ c = a +:+ b +:+ c)%string.
Proof.
  induction a as [|x a IH]; [done|]. rewrite !append_String. by f_equal.
Qed.

Lemma canonicalize_idempotent (c : Ascii.ascii) :
  canonicalize (canonicalize c) = canonicalize c.
Proof. by destruct c as [[] [] [] [] [] [] [] []]. Qed.

Lemma matches_at_occurs (word text : string) :
  matches_at word text = true
  ↔ ∃ found after, text = (found +:+ after)%string ∧ canonical found = canonical word.
Proof.
  revert text. induction word as [|w word IH]; intros text; simpl.
  - split; [|done]. intros _. by exists EmptyString, text.
  - destruct text as [|t text].
    + split; [done|]. intros ([|? ?] & after & Htext & Hfound); [done|].
      rewrite append_String in Htext. discriminate.
    + rewrite andb_true_iff, Ascii.eqb_eq, IH. split.
      * intros (Hhead & found & after & -> & Hfound).
        exists (String t found), after. simpl. by rewrite Hhead, Hfound.
      * intros ([|t' found] & after & Htext & Hfound); [done|].
        rewrite append_String in Htext. injection Htext as -> ->.
        simpl in Hfound. injection Hfound as Hhead Hfound.
        split; [done|]. by exists found, after.
Qed.

Lemma test_occurs (alternatives : list string) (text : string) :
  test alternatives text = true
  ↔ ∃ word, word ∈ alternatives ∧ occurs_ignoring_case word text.
Proof.
  unfold occurs_ignoring_case. induction text as [|c text IH]; simpl.
  - rewrite orb_false_r, existsb_exists. split.
    + intros (word & Hin & (found & after & Htext & Hfound)%matches_at_occurs).
      exists word. split; [by apply list_elem_of_In|].
      by exists EmptyString, found, after.
    + intros (word & Hin & [|? ?] & found & after & Htext & Hfound);
        [|rewrite append_String in Htext; discriminate].
      exists word. split; [by apply list_elem_of_In|].
      apply matches_at_occurs. by exists found, after.
  - rewrite orb_true_iff, existsb_exists, IH. split.
    + intros [(word & Hin & (found & after & Htext & Hfound)%matches_at_occurs)
             | (word & Hin & before & found & after & -> & Hfound)].
      * exists word. split; [by apply list_elem_of_In|].
        by exists EmptyString, found, after.
      * exists word. split; [done|]. by exists (String c before), found, after.
    + intros (word & Hin & [|c' before] & found & after & Htext & Hfound).
      * left. exists word. split; [by apply list_elem_of_In|].
        apply matches_at_occurs. by exists found, after.
      * right. rewrite append_String in Htext. injection Htext as -> ->.
        exists word. split; [done|]. by exists before, found, after.
Qed.

Lemma matches_at_canonical (word text : string) :
  matches_at word (canonical text) = matches_at word text.
Proof.
  revert text. induction word as [|w word IH]; intros [|t text]; simpl; try done.
  by rewrite canonicalize_idempotent, IH.
Qed.

Lemma existsb_matches_canonical (alternatives : list string) (text : string) :
  existsb (λ word, matches_at word (canonical text)) alternatives
  = existsb (λ word, matches_at word text) alternatives.
Proof.
  induction alternatives as [|word alternatives IH]; [done|].
  cbn [existsb]. by rewrite IH, matches_at_canonical.
Qed.

Lemma test_canonical (alternatives : list string) (text : string) :
  test alternatives (canonical text) = test alternatives text.
Proof.
  induction text as [|c text IH]; [done|].
  change (canonical (String c text)) with (String (canonicalize c) (canonical text)).
  cbn [test]. rewrite IH. f_equal.
  exact (existsb_matches_canonical alternatives (String c text)).
Qed.

(** X21: [IS_MOBILE_USER_AGENT] is true exactly when one of the words
    Android, webOS, iPhone, iPad, iPod, BlackBerry occurs somewhere in the
    user agent, in any mix of upper and lower case. *)
Theorem mobile_when_a_word_occurs (userAgent : string) :
  IS_MOBILE_USER_AGENT userAgent = true
  ↔ ∃ word, word ∈ mobileRegex ∧ occurs_ignoring_case word userAgent.
Proof. unfold IS_MOBILE_USER_AGENT. apply test_occurs. Qed.

(** X22: the test ignores the case of the user agent and what surrounds a
    match: two user agents that differ only in the case of letters give the
    same result, and a user agent that contains a mobile one is mobile. *)
Theorem mobile_ignores_case_and_context (userAgent other before after : string) :
  (canonical userAgent = canonical other →
   IS_MOBILE_USER_AGENT userAgent = IS_MOBILE_USER_AGENT other)
  ∧ (IS_MOBILE_USER_AGENT userAgent = true →
     IS_MOBILE_USER_AGENT (before +:+ userAgent +:+ after) = true).
Proof.
  unfold IS_MOBILE_USER_AGENT. split.
  - intros Hsame.
    by rewrite <- (test_canonical _ userAgent), Hsame, test_canonical.
  - rewrite !test_occurs.
    intros (word & Hin & pre & found & post & -> & Hfound).
    exists word. split; [done|].
    exists (before +:+ pre)%string, found, (post +:+ after)%string.
    split; [|done]. by rewrite !append_assoc.
Qed.

End Mobile.

(** ** The properties on the sample data *)

(** X5 on the sample table: after the first two sections left, the third
    step is current. *)
Lemma forward_scroll_advances_witness :
  NoDup Sample.named_steps
  ∧ (2 ≤ length Sample.named_steps)%nat
  ∧ IntroRoute.currentStep
      (IntroRoute.run Sample.named_steps "sine" Sample.window
         ((λ id, IntroRoute.Intersect id Sample.entry) <$> take 2 Sample.named_steps))
    = Str "end".
Proof.
  assert (2 ≤ length Sample.named_steps)%nat as Hk by (simpl; lia).
  exact (conj named_steps_NoDup
           (conj Hk
              (proj1 (forward_scroll_advances Sample.named_steps "sine" Sample.entry
                        Sample.window 2 named_steps_NoDup Hk)))).
Defined.

(** X6 on the sample table: the scroll that finds the second section first
    in view agrees with the first section leaving. *)
Lemma scroll_fallback_agrees_with_intersections_witness :
  NoDup Sample.named_steps
  ∧ Forall (λ s, ¬ is_number s) Sample.named_steps
  ∧ length Sample.sections_second = length Sample.named_steps
  ∧ first_visible Sample.sections_second 1
  ∧ IntroRoute.currentStep
      (IntroRoute.handleScroll Sample.named_steps Sample.sections_second
         (IntroRoute.run Sample.named_steps "sine" Sample.window
            [IntroRoute.ToggleAudibility true]))
    = IntroRoute.currentStep
        (IntroRoute.run Sample.named_steps "sine" Sample.window
           ((λ id, IntroRoute.Intersect id Sample.entry) <$> take 1 Sample.named_steps)).
Proof.
  assert (length Sample.sections_second = length Sample.named_steps)
    as Hlen by reflexivity.
  exact (conj named_steps_NoDup
           (conj named_steps_no_number
              (conj Hlen
                 (conj sections_second_first_visible
                    (scroll_fallback_agrees_with_intersections Sample.named_steps
                       "sine" Sample.entry Sample.window
                       [IntroRoute.ToggleAudibility true] Sample.sections_second 1
                       named_steps_NoDup named_steps_no_number Hlen
                       sections_second_first_visible))))).
Defined.

(** X7 on the sample table: "about" leaves, "end" is current; "about"
    enters again and is current. *)
Lemma leave_and_reenter_witness :
  follows Sample.named_steps (Str "about") (Str "end")
  ∧ Str "end" ≠ Str "about"
  ∧ IntroRoute.currentStep
      (IntroRoute.handleIntersect Sample.named_steps (Str "about") Sample.entry
         (Sample.at_step (Str "about"))) = Str "end"
  ∧ IntroRoute.currentStep
      (IntroRoute.handleIntersect Sample.named_steps (Str "about") Sample.entry
         (IntroRoute.handleIntersect Sample.named_steps (Str "about") Sample.entry
            (Sample.at_step (Str "about")))) = Str "about".
Proof.
  assert (follows Sample.named_steps (Str "about") (Str "end")) as Hfollows.
  { exists [Str "title"], []. split; [reflexivity|].
    intros Hin. apply list_elem_of_singleton in Hin. discriminate Hin. }
  assert (Str "end" ≠ Str "about") as Hne by discriminate.
  exact (conj Hfollows
           (conj Hne
              (leave_and_reenter Sample.named_steps (Str "about") (Str "end")
                 Sample.entry (Sample.at_step (Str "about")) Hfollows Hne eq_refl))).
Defined.

(** X8 on the sample table: an identifier that is no step. *)
Lemma handleIntersect_unknown_id_witness :
  (Str "credits" ∉ Sample.named_steps)
  ∧ IntroRoute.currentStep
      (IntroRoute.handleIntersect Sample.named_steps (Str "credits") Sample.entry
         (Sample.at_step (Str "about"))) = Undefined.
Proof.
  assert (Str "credits" ∉ Sample.named_steps) as Hnotin.
  { unfold Sample.named_steps. rewrite !not_elem_of_cons.
    repeat split; try discriminate. apply not_elem_of_nil. }
  exact (conj Hnotin
           (handleIntersect_unknown_id Sample.named_steps (Str "credits")
              Sample.entry (Sample.at_step (Str "about")) Hnotin)).
Defined.

(** X9 on the sample table: a new amplitude and a scroll, in either
    order. *)
Lemma independent_events_commute_witness :
  independent (IntroRoute.UpdateAmplitude 3) (IntroRoute.Scroll Sample.sections_second)
  ∧ IntroRoute.step Sample.named_steps
      (IntroRoute.step Sample.named_steps (Sample.at_step (Str "title"))
         (IntroRoute.UpdateAmplitude 3))
      (IntroRoute.Scroll Sample.sections_second)
    = IntroRoute.step Sample.named_steps
        (IntroRoute.step Sample.named_steps (Sample.at_step (Str "title"))
           (IntroRoute.Scroll Sample.sections_second))
        (IntroRoute.UpdateAmplitude 3).
Proof.
  exact (conj I
           (independent_events_commute Sample.named_steps
              (IntroRoute.UpdateAmplitude 3) (IntroRoute.Scroll Sample.sections_second)
              (Sample.at_step (Str "title")) I)).
Defined.

Lemma sample_view (window : IntroRoute.Window) (st : IntroRoute.State) :
  is_Some (Sample.step_table !! IntroRoute.to_property_key (IntroRoute.currentStep st)) →
  is_Some (IntroRoute.render Sample.step_table Sample.step_sections window st).
Proof.
  intros [stepData Hstep]. unfold IntroRoute.render. rewrite Hstep. simpl. by eexists.
Qed.


(** X11 on the sample data: after the scroll past all sections [render]
    throws. *)
Lemma render_throws_after_scrolling_past_witness :
  Sample.step_table !! "undefined"%string = None
  ∧ all_above Sample.sections_above
  ∧ ¬ is_number (IntroRoute.currentStep (Sample.at_step (Str "end")))
  ∧ IntroRoute.render Sample.step_table Sample.step_sections Sample.window
      (IntroRoute.handleScroll Sample.named_steps Sample.sections_above
         (Sample.at_step (Str "end"))) = None.
Proof.
  assert (Sample.step_table !! "undefined"%string = None) as Hmissing by reflexivity.
  assert (¬ is_number (IntroRoute.currentStep (Sample.at_step (Str "end"))))
    as Hnum by (simpl; tauto).
  exact (conj Hmissing
           (conj sections_above_all_above
              (conj Hnum
                 (render_throws_after_scrolling_past Sample.named_steps
                    Sample.step_table Sample.step_sections Sample.window
                    Sample.sections_above (Sample.at_step (Str "end"))
                    Hmissing sections_above_all_above Hnum)))).
Defined.

(** X12 on the sample data: on the step "about", with sound enabled. *)
Lemma oscillator_audible_with_visible_toggle_witness :
  ∃ view,
    IntroRoute.render Sample.step_table Sample.step_sections Sample.window
      (IntroRoute.handleToggleAudibility true (Sample.at_step (Str "about")))
    = Some view
    ∧ IntroRoute.oscillator_isAudible (IntroRoute.oscillator view)
      = IntroRoute.toggle_isAudible (IntroRoute.soundButtonToggle view)
        && IntroRoute.toggle_isVisible (IntroRoute.soundButtonToggle view).
Proof.
  destruct (sample_view Sample.window
              (IntroRoute.handleToggleAudibility true (Sample.at_step (Str "about"))))
    as [view Hview]; [by eexists|].
  exists view. split; [exact Hview|].
  exact (proj1 (oscillator_audible_with_visible_toggle Sample.step_table
                  Sample.step_sections Sample.window _ view Hview)).
Defined.

Lemma step_sections_NoDup : NoDup (section_ids Sample.step_sections).
Proof. apply (bool_decide_unpack _). vm_compute. exact I. Qed.

(** X13 on the sample data: on the step "about" one section is selected. *)
Lemma one_section_selected_witness :
  ∃ view,
    IntroRoute.render Sample.step_table Sample.step_sections Sample.window
      (Sample.at_step (Str "about")) = Some view
    ∧ NoDup (section_ids Sample.step_sections)
    ∧ IntroRoute.props_id <$> IntroRoute.sections view
      = section_ids Sample.step_sections
    ∧ length (selected view) = 1%nat.
Proof.
  destruct (sample_view Sample.window (Sample.at_step (Str "about")))
    as [view Hview]; [by eexists|].
  destruct (one_section_selected Sample.step_table Sample.step_sections
              Sample.window _ view Hview step_sections_NoDup)
    as (Hids & _ & Hone & _).
  exists view.
  refine (conj Hview (conj step_sections_NoDup (conj Hids (Hone _)))).
  unfold section_ids, Sample.step_sections. simpl. right. left.
Defined.


(** X15 on the sample data: the resize to 600 pixels was handled, the
    window is 800 pixels high again at the render. *)
Lemma margins_follow_handled_resize_witness :
  ∃ view,
    IntroRoute.render Sample.step_table Sample.step_sections Sample.window
      (IntroRoute.handleResize Sample.lower_window (Sample.at_step (Str "title")))
    = Some view
    ∧ IntroRoute.bottomTextSpacer_height view = 800
    ∧ Forall2 (λ section sp,
                 ∃ getMargin,
                   IntroRoute.section_getMargin section = Some getMargin
                   ∧ IntroRoute.props_margin sp = getMargin 600)
              Sample.step_sections (IntroRoute.sections view).
Proof.
  destruct (sample_view Sample.window
              (IntroRoute.handleResize Sample.lower_window
                 (Sample.at_step (Str "title"))))
    as [view Hview]; [by eexists|].
  exists view.
  exact (conj Hview
           (margins_follow_handled_resize Sample.step_table Sample.step_sections
              Sample.lower_window Sample.window _ view Hview)).
Defined.

(** X18 on the sample component: a report and an unmount before the mount. *)
Lemma nothing_before_mount_witness :
  Forall (λ ev, ev ≠ AvailableWidth.Mount)
    [AvailableWidth.Resized [Sample.narrower]; AvailableWidth.Unmount]
  ∧ AvailableWidth.run (AvailableWidth.create Sample.width_props Sample.container)
      [AvailableWidth.Resized [Sample.narrower]; AvailableWidth.Unmount]
    = AvailableWidth.create Sample.width_props Sample.container.
Proof.
  assert (Forall (λ ev, ev ≠ AvailableWidth.Mount)
            [AvailableWidth.Resized [Sample.narrower]; AvailableWidth.Unmount])
    as Hevs by (repeat constructor; discriminate).
  exact (conj Hevs
           (proj1 (nothing_before_mount Sample.width_props Sample.container _ Hevs))).
Defined.

(** X19 on the sample component: the width 480 comes from the report. *)
Lemma width_was_measured_witness :
  AvailableWidth.width
    (AvailableWidth.state
       (AvailableWidth.run (AvailableWidth.create Sample.width_props Sample.container)
          [AvailableWidth.Mount; AvailableWidth.Resized [Sample.narrower]]))
  = Some 480
  ∧ measured Sample.container
      [AvailableWidth.Mount; AvailableWidth.Resized [Sample.narrower]] 480.
Proof.
  exact (conj eq_refl
           (width_was_measured Sample.width_props Sample.container
              [AvailableWidth.Mount; AvailableWidth.Resized [Sample.narrower]]
              480 eq_refl)).
Defined.

(** X22 on the user agent of a phone: in upper case, and inside a longer
    string. *)
Lemma mobile_ignores_case_and_context_witness :
  canonical Sample.phone = canonical Sample.loud_phone
  ∧ Constants.IS_MOBILE_USER_AGENT Sample.phone = true
  ∧ Constants.IS_MOBILE_USER_AGENT Sample.loud_phone = true
  ∧ Constants.IS_MOBILE_USER_AGENT ("UA: " +:+ Sample.phone +:+ " Safari/604.1") = true.
Proof.
  assert (canonical Sample.phone = canonical Sample.loud_phone) as Hsame by reflexivity.
  assert (Constants.IS_MOBILE_USER_AGENT Sample.phone = true) as Hphone by reflexivity.
  destruct (mobile_ignores_case_and_context Sample.phone Sample.loud_phone
              "UA: " " Safari/604.1") as [Hcase Hcontext].
  refine (conj Hsame (conj Hphone (conj _ (Hcontext Hphone)))).
  rewrite <- (Hcase Hsame). exact Hphone.
Defined.
